(** * Object Keypoint Similarity evaluation: a model of [oks_eval.py]

    The script scores generated images against ground-truth pose images.
    [calculate_oks] is the NumPy kernel, [extract_pose] wraps the external
    OpenPose detector, and the module body is a batch loop over the files
    of the ground-truth folder followed by a summary.

    The arithmetic is NumPy's [float64].  The model is written once over
    an interface of scalar operations ([Scalar]) and read in two ways:
    - [binary64]: IEEE-754 double precision, through Rocq's primitive
      floats; [np.exp] comes from the C library and is a parameter;
    - [ideal]: the real numbers, the reading under which the metric's
      analytic properties (monotonicity, exact values) are stated. *)

From Stdlib Require Import String Ascii Bool Arith ZArith Lia List.
From Stdlib Require Import Reals Lra.
From Stdlib Require Import Floats Uint63.
From Stdlib Require Import Orders Sorting.Mergesort.
From Stdlib Require Import Sorting.Sorted Sorting.Permutation.
From Stdlib Require OrderedTypeEx.
Import ListNotations.

Set Implicit Arguments.

(** ** Scalars *)

Class Scalar (F : Type) : Type := {
  s_zero : F;                       (* 0.0, the value of an empty sum *)
  s_two : F;                        (* the literal 2 of line 29 *)
  s_eps : F;                        (* np.finfo(float).eps *)
  s_add : F -> F -> F;
  s_sub : F -> F -> F;
  s_mul : F -> F -> F;
  s_div : F -> F -> F;              (* true division; never raises in NumPy *)
  s_neg : F -> F;
  s_exp : F -> F;                   (* np.exp *)
  s_of_nat : nat -> F;              (* an element count, as a scalar *)
  s_max : F -> F -> F;              (* one step of np.max *)
  s_min : F -> F -> F               (* one step of np.min *)
}.

Declare Scope scalar_scope.
Delimit Scope scalar_scope with sc.
Infix "+" := s_add : scalar_scope.
Infix "-" := s_sub : scalar_scope.
Infix "*" := s_mul : scalar_scope.
Infix "/" := s_div : scalar_scope.
Notation "- x" := (s_neg x) : scalar_scope.

(** [x ** 2] on a float array is the product of [x] with itself. *)
Definition square {F} `{Scalar F} (x : F) : F := (x * x)%sc.

(** Machine epsilon of [float64] is [2^-52]. *)
Definition ideal_eps : R := (/ 2 ^ 52)%R.

Arguments ideal_eps : simpl never.

(** The real-number reading. *)
#[export] Instance ideal : Scalar R := {
  s_zero := 0%R;
  s_two := 2%R;
  s_eps := ideal_eps;
  s_add := Rplus;
  s_sub := Rminus;
  s_mul := Rmult;
  s_div := Rdiv;
  s_neg := Ropp;
  s_exp := exp;
  s_of_nat := INR;
  s_max := Rmax;
  s_min := Rmin
}.

(** One step of [np.max] and [np.min] on doubles: a NaN accumulator
    stays; otherwise the accumulator [a] is kept only when it is strictly
    greater (resp. smaller) than [b], so that of two equal elements the
    later one is returned, and a NaN on the right wins too. *)
Definition float_max (a b : float) : float :=
  if PrimFloat.is_nan a then a else if PrimFloat.ltb b a then a else b.

Definition float_min (a b : float) : float :=
  if PrimFloat.is_nan a then a else if PrimFloat.ltb a b then a else b.

(** The IEEE-754 reading, for a given implementation [fexp] of [np.exp]. *)
Definition binary64 (fexp : float -> float) : Scalar float := {|
  s_zero := 0%float;
  s_two := 2%float;
  s_eps := 0x1p-52%float;
  s_add := PrimFloat.add;
  s_sub := PrimFloat.sub;
  s_mul := PrimFloat.mul;
  s_div := PrimFloat.div;
  s_neg := PrimFloat.opp;
  s_exp := fexp;
  s_of_nat := fun n => PrimFloat.of_uint63 (Uint63.of_Z (Z.of_nat n));
  s_max := float_max;
  s_min := float_min
|}.

(** ** Exceptions and results *)

Inductive exn : Type :=
| AssertionError (msg : string)     (* a failed [assert] *)
| ValueError (msg : string)         (* NumPy: broadcasting, empty reduction *)
| IndexError (msg : string)         (* NumPy: too many indices *)
| AxisError (msg : string)          (* NumPy: axis out of bounds *)
| DetectorError (msg : string).     (* raised inside the external detector *)

Inductive result (A : Type) : Type :=
| Ok (a : A)
| Raise (e : exn).

Arguments Ok {A} a.
Arguments Raise {A} e.

Definition bind {A B} (r : result A) (k : A -> result B) : result B :=
  match r with
  | Ok a => k a
  | Raise e => Raise e
  end.

Declare Scope result_scope.
Delimit Scope result_scope with res.
Notation "x <- r ;; k" := (bind r (fun x => k))
  (at level 61, r at next level, right associativity) : result_scope.

(** ** Arrays

    The keypoint arrays of the script are either one-dimensional (what
    [np.array([])] builds: shape [(0,)]) or two-dimensional with two
    columns (shape [(n, 2)]). *)

Inductive ndarray (F : Type) : Type :=
| Arr1 (v : list F)
| Arr2 (rows : list (F * F)).

Arguments Arr1 {F} v.
Arguments Arr2 {F} rows.

Definition shape {F} (a : ndarray F) : list nat :=
  match a with
  | Arr1 v => [length v]
  | Arr2 rows => [length rows; 2]
  end.

Definition shape_eqb (s t : list nat) : bool :=
  if list_eq_dec Nat.eq_dec s t then true else false.

Section Numpy.

Context {F : Type} `{Scalar F}.

Open Scope result_scope.

(** Element-wise operation on two arrays of the same shape. *)
Fixpoint zip_with {A B C} (f : A -> B -> C) (l : list A) (m : list B) : list C :=
  match l, m with
  | a :: l', b :: m' => f a b :: zip_with f l' m'
  | _, _ => []
  end.

(** [a - b].  The script subtracts only after the shape assertion, so on
    equal shapes; on arrays of different dimensions, which the assertion
    excludes, the model gives back the left operand. *)
Definition np_subtract (a b : ndarray F) : ndarray F :=
  match a, b with
  | Arr2 r1, Arr2 r2 =>
      Arr2 (zip_with (fun p q => ((fst p - fst q)%sc, (snd p - snd q)%sc)) r1 r2)
  | Arr1 v1, Arr1 v2 => Arr1 (zip_with s_sub v1 v2)
  | Arr1 v1, Arr2 _ => Arr1 v1
  | Arr2 r1, Arr1 _ => Arr2 r1
  end.

(** [a ** 2] *)
Definition np_square (a : ndarray F) : ndarray F :=
  match a with
  | Arr1 v => Arr1 (map square v)
  | Arr2 rows => Arr2 (map (fun p => (square (fst p), square (snd p))) rows)
  end.

(** [np.sum] of a one-dimensional array: the empty sum is 0.0, a
    non-empty one adds the entries to the first.  (NumPy regroups the
    additions of long arrays; over the reals the sum is the same.) *)
Definition np_sum (v : list F) : F :=
  match v with
  | [] => s_zero
  | x :: xs => fold_left s_add xs x
  end.

(** [np.sum(a, axis=1)] *)
Definition np_sum_axis1 (a : ndarray F) : result (list F) :=
  match a with
  | Arr1 _ => Raise (AxisError "axis 1 is out of bounds for array of dimension 1")
  | Arr2 rows => Ok (map (fun p => (fst p + snd p)%sc) rows)
  end.

(** [np.mean] of a one-dimensional array: the sum over the count.  On an
    empty array this is 0.0 / 0. *)
Definition np_mean (v : list F) : F :=
  (np_sum v / s_of_nat (length v))%sc.

(** NumPy broadcasting of a binary operation over two one-dimensional
    arrays: equal lengths pair up, a length-1 operand is stretched, any
    other combination is an error. *)
Definition broadcast (f : F -> F -> F) (a b : list F) : result (list F) :=
  if Nat.eqb (length a) (length b) then Ok (zip_with f a b)
  else match a, b with
       | [x], _ => Ok (map (f x) b)
       | _, [y] => Ok (map (fun x => f x y) a)
       | _, _ => Raise (ValueError "operands could not be broadcast together")
       end.

(** *** [calculate_oks] (lines 14-32) *)

(** Line 26: [np.sum((pred_keypoints - gt_keypoints) ** 2, axis=1)] *)
Definition squared_distances (pred_keypoints gt_keypoints : ndarray F)
  : result (list F) :=
  np_sum_axis1 (np_square (np_subtract pred_keypoints gt_keypoints)).

(** Line 29: [(2 * (sigmas ** 2)) * (bbox_area + np.finfo(float).eps)] *)
Definition variances (sigmas : list F) (bbox_area : F) : list F :=
  map (fun v => (v * (bbox_area + s_eps))%sc)
      (map (fun s2 => (s_two * s2)%sc) (map square sigmas)).

(** Line 30, the argument of [np.exp]: [-dists / variances] *)
Definition exponents (dists vars : list F) : result (list F) :=
  broadcast s_div (map s_neg dists) vars.

Definition calculate_oks (pred_keypoints gt_keypoints : ndarray F)
    (sigmas : list F) (bbox_area : F) : result F :=
  if negb (shape_eqb (shape pred_keypoints) (shape gt_keypoints))
  then Raise (AssertionError "Keypoints shape mismatch")
  else
    dists <- squared_distances pred_keypoints gt_keypoints ;;
    let vars := variances sigmas bbox_area in
    args <- exponents dists vars ;;
    let oks_scores := map s_exp args in
    Ok (np_mean oks_scores).

End Numpy.

(** ** File names and paths *)

Open Scope string_scope.

(** [name.rfind('.')], counting from index [i] for the head of [name]. *)
Fixpoint rfind_dot (name : string) (i : nat) : option nat :=
  match name with
  | EmptyString => None
  | String c rest =>
      match rfind_dot rest (S i) with
      | Some j => Some j
      | None => if Ascii.eqb c "." then Some i else None
      end
  end.

(** [Path(name).stem] for a bare file name, as [os.listdir] returns them:
    the name up to its last dot, unless that dot is first or last. *)
Definition stem (name : string) : string :=
  match rfind_dot name 0 with
  | Some i =>
      if Nat.ltb 0 i && Nat.ltb i (String.length name - 1)
      then substring 0 i name
      else name
  | None => name
  end.

Fixpoint ends_with_slash (a : string) : bool :=
  match a with
  | EmptyString => false
  | String c EmptyString => Ascii.eqb c "/"
  | String _ rest => ends_with_slash rest
  end.

(** [os.path.join(a, b)] (POSIX) *)
Definition path_join (a b : string) : string :=
  if prefix "/" b then b
  else if (String.eqb a "") || ends_with_slash a then a ++ b
  else a ++ "/" ++ b.

(** [sorted] on a list of strings: Python orders strings by code point. *)
Module StringOrder <: TotalLeBool.
Definition t := string.
Definition leb := String.leb.
Lemma leb_total (s1 s2 : t) : leb s1 s2 = true \/ leb s2 s1 = true.
Proof. apply String.leb_total. Qed.
End StringOrder.

Module StringSort := Sort StringOrder.

Definition sorted (names : list string) : list string := StringSort.sort names.

(** Lines 53-54 *)
Definition ground_truth_folder : string := "poses".
Definition generated_images_folder : string := "generated_images".

(** ** The script *)

(** What [print] writes.  The formatting of a number ([:.4f]) is left
    out: a line carries the number it shows. *)
Inductive output (F : Type) : Type :=
| Text (line : string)
| OksLine (gt_file : string) (oks_score : F)      (* line 83 *)
| AverageLine (average : F)                       (* line 87 *)
| ScoresLine (oks_scores : list F).               (* line 88 *)

Arguments Text {F} line.
Arguments OksLine {F} gt_file oks_score.
Arguments AverageLine {F} average.
Arguments ScoresLine {F} oks_scores.

(** What the script reads from outside: the listing of the ground-truth
    folder, which paths exist, and what the OpenPose detector (lines
    41-43: read, resize, detect) gives for an image path: a sequence of
    points, [None] for a joint it did not find, or an exception. *)
Record World (F : Type) : Type := {
  listdir_ground_truth : list string;
  path_exists : string -> bool;
  apply_openpose : string -> result (list (option (F * F)))
}.

(** The variables of the module body: the score list and the output. *)
Record state (F : Type) : Type := {
  oks_scores : list F;
  stdout : list (output F)
}.

Inductive outcome (F : Type) : Type :=
| Finished (st : state F)
| Crashed (e : exn) (st : state F).

Arguments Finished {F} st.
Arguments Crashed {F} e st.

Section Script.

Context {F : Type} `{Scalar F}.
Variable w : World F.

Open Scope result_scope.

(** [point is not None] *)
Definition is_detected (point : option (F * F)) : bool :=
  match point with
  | Some _ => true
  | None => false
  end.

(** Lines 46-49: the loop that collects the detected points. *)
Fixpoint collect_keypoints (detected_map : list (option (F * F)))
  : list (F * F) :=
  match detected_map with
  | [] => []
  | Some point :: rest => (fst point, snd point) :: collect_keypoints rest
  | None :: rest => collect_keypoints rest
  end.

(** [np.array] of a list of pairs: an empty list gives shape [(0,)]. *)
Definition np_array (keypoints : list (F * F)) : ndarray F :=
  match keypoints with
  | [] => Arr1 []
  | _ => Arr2 keypoints
  end.

(** [extract_pose] (lines 35-50) *)
Definition extract_pose (image_path : string) : result (ndarray F) :=
  detected_map <- apply_openpose w image_path ;;
  Ok (np_array (collect_keypoints detected_map)).

(** [a[:, j]] for [j] = 0, 1 *)
Definition column (j : nat) (a : ndarray F) : result (list F) :=
  match a with
  | Arr1 _ =>
      Raise (IndexError "too many indices for array: array is 1-dimensional, but 2 were indexed")
  | Arr2 rows => Ok (map (if Nat.eqb j 0 then fst else snd) rows)
  end.

(** [np.max] and [np.min] of a one-dimensional array *)
Definition np_max (v : list F) : result F :=
  match v with
  | [] => Raise (ValueError "zero-size array to reduction operation maximum which has no identity")
  | x :: xs => Ok (fold_left s_max xs x)
  end.

Definition np_min (v : list F) : result F :=
  match v with
  | [] => Raise (ValueError "zero-size array to reduction operation minimum which has no identity")
  | x :: xs => Ok (fold_left s_min xs x)
  end.

(** Lines 76-77 *)
Definition bounding_box_area (gt_keypoints : ndarray F) : result F :=
  xs <- column 0 gt_keypoints ;;
  max_x <- np_max xs ;;
  xs' <- column 0 gt_keypoints ;;
  min_x <- np_min xs' ;;
  ys <- column 1 gt_keypoints ;;
  max_y <- np_max ys ;;
  ys' <- column 1 gt_keypoints ;;
  min_y <- np_min ys' ;;
  Ok ((max_x - min_x) * (max_y - min_y))%sc.

(** Lines 57-58 are a module constant; the script passes it to every
    call.  It is a parameter here. *)
Variable sigmas : list F.

(** Lines 69-80: one pair, once the generated image is known to exist. *)
Definition score_pair (gt_file image_file : string) : result F :=
  gt_keypoints <- extract_pose (path_join ground_truth_folder gt_file) ;;
  pred_keypoints <- extract_pose image_file ;;
  bbox_area <- bounding_box_area gt_keypoints ;;
  calculate_oks pred_keypoints gt_keypoints sigmas bbox_area.

Definition print (o : output F) (st : state F) : state F :=
  {| oks_scores := oks_scores st; stdout := stdout st ++ [o] |}.

Definition append_score (oks_score : F) (st : state F) : state F :=
  {| oks_scores := oks_scores st ++ [oks_score]; stdout := stdout st |}.

(** Line 64 *)
Definition image_file_of (gt_file : string) : string :=
  path_join generated_images_folder (stem gt_file ++ ".png")%string.

(** Lines 62-83: the loop.  An exception leaves the loop and the script. *)
Fixpoint batch_loop (gt_files : list string) (st : state F) : outcome F :=
  match gt_files with
  | [] => Finished st
  | gt_file :: rest =>
      let image_file := image_file_of gt_file in
      if negb (path_exists w image_file) then
        batch_loop rest
          (print (Text ("Generated image not found for " ++ gt_file)%string) st)
      else
        match score_pair gt_file image_file with
        | Raise e => Crashed e st
        | Ok oks_score =>
            batch_loop rest
              (print (OksLine gt_file oks_score) (append_score oks_score st))
        end
  end.

(** Lines 85-88 *)
Definition summary (st : state F) : state F :=
  print (ScoresLine (oks_scores st))
    (print (AverageLine (np_mean (oks_scores st)))
       (print (Text "
Evaluation Summary:") st)).

Definition initial : state F := {| oks_scores := []; stdout := [] |}.

(** Lines 61-88 *)
Definition main : outcome F :=
  match batch_loop (sorted (listdir_ground_truth w)) initial with
  | Finished st => Finished (summary st)
  | Crashed e st => Crashed e st
  end.

End Script.

Close Scope string_scope.

(** ** Arrays as objects

    A NumPy array is a mutable object and [calculate_oks] receives
    references.  The store keeps the keypoint arrays and the
    one-dimensional arrays (sigmas, distances, ...) apart, by the types of
    the docstring.  Every operator of lines 23-32 reads its operands and
    builds a new array for its result. *)

Record heap (F : Type) : Type := {
  arrays : list (ndarray F);
  vectors : list (list F)
}.

Section Objects.

Context {F : Type} `{Scalar F}.

Definition M (A : Type) : Type := heap F -> result A * heap F.

Definition ret {A} (a : A) : M A := fun h => (Ok a, h).

Definition raise {A} (e : exn) : M A := fun h => (Raise e, h).

Definition bindM {A B} (m : M A) (k : A -> M B) : M B :=
  fun h =>
    match m h with
    | (Ok a, h') => k a h'
    | (Raise e, h') => (Raise e, h')
    end.

Notation "x <~ m ;; k" := (bindM m (fun x => k))
  (at level 61, m at next level, right associativity).

Definition read_array (ref : nat) : M (ndarray F) :=
  fun h => (Ok (nth ref (arrays h) (Arr1 [])), h).

Definition read_vector (ref : nat) : M (list F) :=
  fun h => (Ok (nth ref (vectors h) []), h).

Definition new_array (a : ndarray F) : M nat :=
  fun h => (Ok (length (arrays h)),
            {| arrays := arrays h ++ [a]; vectors := vectors h |}).

Definition new_vector (v : list F) : M nat :=
  fun h => (Ok (length (vectors h)),
            {| arrays := arrays h; vectors := vectors h ++ [v] |}).

Definition lift {A} (r : result A) : M A :=
  match r with
  | Ok a => ret a
  | Raise e => raise e
  end.

Definition obj_shape (a : nat) : M (list nat) :=
  x <~ read_array a ;; ret (shape x).

Definition obj_subtract (a b : nat) : M nat :=
  x <~ read_array a ;; y <~ read_array b ;; new_array (np_subtract x y).

Definition obj_square (a : nat) : M nat :=
  x <~ read_array a ;; new_array (np_square x).

Definition obj_sum_axis1 (a : nat) : M nat :=
  x <~ read_array a ;; v <~ lift (np_sum_axis1 x) ;; new_vector v.

Definition obj_map (f : F -> F) (v : nat) : M nat :=
  x <~ read_vector v ;; new_vector (map f x).

Definition obj_broadcast (f : F -> F -> F) (a b : nat) : M nat :=
  x <~ read_vector a ;; y <~ read_vector b ;;
  v <~ lift (broadcast f x y) ;; new_vector v.

Definition obj_mean (v : nat) : M F :=
  x <~ read_vector v ;; ret (np_mean x).

(** [calculate_oks] on references (lines 23-32) *)
Definition calculate_oks_obj (pred_keypoints gt_keypoints sigmas : nat)
    (bbox_area : F) : M F :=
  pred_shape <~ obj_shape pred_keypoints ;;
  gt_shape <~ obj_shape gt_keypoints ;;
  if negb (shape_eqb pred_shape gt_shape)
  then raise (AssertionError "Keypoints shape mismatch")
  else
    diff <~ obj_subtract pred_keypoints gt_keypoints ;;
    squares <~ obj_square diff ;;
    dists <~ obj_sum_axis1 squares ;;
    sigmas2 <~ obj_map square sigmas ;;
    twice <~ obj_map (fun s2 => (s_two * s2)%sc) sigmas2 ;;
    vars <~ obj_map (fun v => (v * (bbox_area + s_eps))%sc) twice ;;
    minus_dists <~ obj_map s_neg dists ;;
    args <~ obj_broadcast s_div minus_dists vars ;;
    oks_scores <~ obj_map s_exp args ;;
    obj_mean oks_scores.

End Objects.

(** ** The score as a formula *)

Section Formula.

Context {F : Type} `{Scalar F}.

(** The sum of [f 0], ..., [f (n-1)], added in this order. *)
Fixpoint sum_upto (f : nat -> F) (n : nat) : F :=
  match n with
  | 0 => s_zero
  | S m => match m with
           | 0 => f 0
           | S _ => (sum_upto f m + f m)%sc
           end
  end.

(** The score in the words of the specification: for each index [i] the
    squared distance [d_i], the variance scale [v_i], the similarity
    [exp(-d_i / v_i)], and the mean of the similarities. *)
Definition keypoint_at (i : nat) (k : list (F * F)) : F * F :=
  nth i k (s_zero, s_zero).

Definition d_ (predicted reference : list (F * F)) (i : nat) : F :=
  let p := keypoint_at i predicted in
  let r := keypoint_at i reference in
  ((fst p - fst r) * (fst p - fst r) + (snd p - snd r) * (snd p - snd r))%sc.

Definition v_ (sigmas : list F) (area : F) (i : nat) : F :=
  let sigma := nth i sigmas s_zero in
  (s_two * (sigma * sigma) * (area + s_eps))%sc.

Definition similarity (predicted reference : list (F * F)) (sigmas : list F)
    (area : F) (i : nat) : F :=
  s_exp (- d_ predicted reference i / v_ sigmas area i)%sc.

Definition mean_similarity (predicted reference : list (F * F))
    (sigmas : list F) (area : F) : F :=
  let K := length predicted in
  (sum_upto (similarity predicted reference sigmas area) K / s_of_nat K)%sc.

(** The array of line 30 before the mean, for inputs of equal length. *)
Definition similarities (p r : list (F * F)) (sigmas : list F) (area : F)
  : list F :=
  map s_exp
    (zip_with s_div
       (map s_neg
          (map (fun q => (fst q + snd q)%sc)
             (map (fun q => (square (fst q), square (snd q)))
                (zip_with
                   (fun a b => ((fst a - fst b)%sc, (snd a - snd b)%sc))
                   p r))))
       (variances sigmas area)).

End Formula.

(** ** Sample inputs *)

(** A world in which the ground-truth folder holds [a.png] and nothing
    else exists. *)
Definition lonely_world : World float := {|
  listdir_ground_truth := ["a.png"%string];
  path_exists := fun _ => false;
  apply_openpose := fun _ => Raise (DetectorError "unreadable image")
|}.

(** The folder holds [a.png], its generated image exists, and the
    detector finds no joint in either image. *)
Definition nothing_found_world : World float := {|
  listdir_ground_truth := ["a.png"%string];
  path_exists := fun _ => true;
  apply_openpose := fun _ => Ok [None; None]
|}.

(** The COCO sigmas of lines 57-58, as reals. *)
Definition coco_sigmas : list R :=
  [0.26; 0.25; 0.25; 0.35; 0.35; 0.79; 0.79; 0.72; 0.72;
   0.62; 0.62; 1.07; 1.07; 0.87; 0.87; 0.89; 0.89]%R.

(** Two keypoints that differ in the first one. *)
Definition sample_predicted : list (R * R) := [(0, 0); (3, 4)]%R.
Definition sample_reference : list (R * R) := [(1, 0); (3, 4)]%R.
Definition sample_sigmas : list R := [1; 2]%R.

(** One keypoint at the origin, and two far keypoints whose squared
    distances from it are [2^1000] and [2^1001]. *)
Definition origin : list (float * float) := [(0, 0)]%float.
Definition far : list (float * float) := [(0x1p500, 0)]%float.
Definition farther : list (float * float) := [(0x1p500, 0x1p500)]%float.

(** The single-keypoint example of the zero-area edge case. *)
Definition unit_predicted : list (R * R) := [(0, 0)]%R.
Definition unit_reference : list (R * R) := [(1, 0)]%R.
Definition unit_right : list (float * float) := [(1, 0)]%float.

(** Worlds for the batch loop, over the reals.  The detector finds the
    two joints of [sample_reference] in every ground-truth image and
    those of [sample_predicted] in every generated image, unless said
    otherwise. *)
Definition detects (points : list (R * R)) : result (list (option (R * R))) :=
  Ok (map Some points).

Definition usual_detector (image_path : string)
  : result (list (option (R * R))) :=
  if prefix "poses/" image_path then detects sample_reference
  else detects sample_predicted.

(** The folder holds [b.png] and [a.png]; only [a.png] was generated. *)
Definition candidate_missing_world : World R := {|
  listdir_ground_truth := ["b.png"; "a.png"]%string;
  path_exists := fun path => String.eqb path "generated_images/a.png";
  apply_openpose := usual_detector
|}.

(** Both images were generated; in the generated [a.png] the detector
    misses the second joint. *)
Definition joint_missed_world : World R := {|
  listdir_ground_truth := ["a.png"; "b.png"]%string;
  path_exists := fun _ => true;
  apply_openpose := fun image_path =>
    if String.eqb image_path "generated_images/a.png"
    then Ok [Some (0, 0)%R; None]
    else usual_detector image_path
|}.

(** Both images were generated; in the ground-truth [a.png] the detector
    finds no joint at all. *)
Definition nothing_detected_world : World R := {|
  listdir_ground_truth := ["a.png"; "b.png"]%string;
  path_exists := fun _ => true;
  apply_openpose := fun image_path =>
    if String.eqb image_path "poses/a.png"
    then Ok [None; None]
    else usual_detector image_path
|}.

(** A store with the two sample keypoint arrays and the sample sigmas. *)
Definition sample_heap : heap R := {|
  arrays := [Arr2 sample_predicted; Arr2 sample_reference];
  vectors := [sample_sigmas]
|}.

(** ** Notions used by the further properties *)

(** The scores shown by the score lines of an output. *)
Fixpoint line_scores {F} (lines : list (output F)) : list F :=
  match lines with
  | [] => []
  | OksLine _ oks_score :: rest => oks_score :: line_scores rest
  | _ :: rest => line_scores rest
  end.

(** [line] is what the loop prints for the entry [gt_file]: the not-found
    line when no generated image exists, else the line of its score. *)
Definition line_of_entry {F} `{Scalar F} (w : World F) (sigmas : list F)
    (gt_file : string) (line : output F) : Prop :=
  (path_exists w (image_file_of gt_file) = false
   /\ line = Text ("Generated image not found for " ++ gt_file)%string)
  \/ (path_exists w (image_file_of gt_file) = true
      /\ exists oks_score,
           score_pair w sigmas gt_file (image_file_of gt_file) = Ok oks_score
           /\ line = OksLine gt_file oks_score).

(** The same world with another listing of the ground-truth folder. *)
Definition with_listing {F} (names : list string) (w : World F) : World F := {|
  listdir_ground_truth := names;
  path_exists := path_exists w;
  apply_openpose := apply_openpose w
|}.

(** Whether a character occurs in a string. *)
Fixpoint has_char (c : ascii) (s : string) : bool :=
  match s with
  | EmptyString => false
  | String c' rest => Ascii.eqb c' c || has_char c rest
  end.

(** The same shift applied to a point, to every keypoint of a list, and
    to every point the detector reports. *)
Definition shift_point (tx ty : R) (q : R * R) : R * R :=
  (fst q + tx, snd q + ty)%R.

Definition translate (tx ty : R) (k : list (R * R)) : list (R * R) :=
  map (shift_point tx ty) k.

Definition shifted_detections (tx ty : R) (w : World R) : World R := {|
  listdir_ground_truth := listdir_ground_truth w;
  path_exists := path_exists w;
  apply_openpose := fun image_path =>
    match apply_openpose w image_path with
    | Ok detected_map => Ok (map (option_map (shift_point tx ty)) detected_map)
    | Raise e => Raise e
    end
|}.

(** * Properties *)

(** ** The summary of a run without scores *)

Lemma summary_stdout {F} `{Scalar F} (st : state F) :
  stdout (summary st) =
    stdout st ++ [Text "
Evaluation Summary:"; AverageLine (np_mean (oks_scores st));
                  ScoresLine (oks_scores st)].
Proof.
  unfold summary, print; simpl.
  now rewrite <- !app_assoc.
Qed.

Lemma summary_scores {F} `{Scalar F} (st : state F) :
  oks_scores (summary st) = oks_scores st.
Proof. reflexivity. Qed.

Lemma main_finished {F} `{Scalar F} (w : World F) (sigmas : list F) (st : state F) :
  main w sigmas = Finished st ->
  exists st0,
    batch_loop w sigmas (sorted (listdir_ground_truth w)) initial = Finished st0
    /\ st = summary st0.
Proof.
  unfold main.
  destruct (batch_loop w sigmas (sorted (listdir_ground_truth w)) initial)
    as [st0|e st0]; intros E; inversion E; subst.
  now exists st0.
Qed.

(** In double precision the summary of an empty score list shows NaN,
    the value of 0.0 / 0, whatever the C library's [exp] computes. *)
Lemma summary_without_scores_is_nan
    (fexp : float -> float) (w : World float) (sigmas : list float)
    (st : state float) :
    @main float (binary64 fexp) w sigmas = Finished st ->
    oks_scores st = [] ->
    exists out average,
      stdout st = out ++ [Text "
Evaluation Summary:"; AverageLine average; ScoresLine []]
      /\ PrimFloat.is_nan average = true
      /\ average <> 0%float.
Proof.
  intros Hmain Hnil.
  destruct (@main_finished float (binary64 fexp) w sigmas st Hmain)
    as [st0 [_ ->]].
  rewrite summary_scores in Hnil.
  exists (stdout st0), nan.
  rewrite summary_stdout, Hnil.
  split; [reflexivity|].
  split; [reflexivity|].
  intros E. apply (f_equal PrimFloat.is_nan) in E. discriminate E.
Qed.

(** ** The score as a formula: lemmas *)

Section FormulaFacts.

Context {F : Type} `{Scalar F}.

Lemma sum_upto_ext (f g : nat -> F) (n : nat) :
  (forall i, i < n -> f i = g i) -> sum_upto f n = sum_upto g n.
Proof.
  induction n as [|[|m] IH]; intros E.
  - reflexivity.
  - simpl. apply E. lia.
  - change (sum_upto f (S (S m))) with (sum_upto f (S m) + f (S m))%sc.
    change (sum_upto g (S (S m))) with (sum_upto g (S m) + g (S m))%sc.
    rewrite IH by (intros; apply E; lia).
    rewrite (E (S m)) by lia. reflexivity.
Qed.

Lemma np_sum_snoc (l : list F) (x : F) :
  np_sum (l ++ [x]) = match l with [] => x | _ => (np_sum l + x)%sc end.
Proof.
  destruct l as [|a l]; [reflexivity|].
  simpl. now rewrite fold_left_app.
Qed.

Lemma np_sum_sum_upto (d : F) (l : list F) :
  np_sum l = sum_upto (fun i => nth i l d) (length l).
Proof.
  induction l as [|x l IH] using rev_ind; [reflexivity|].
  rewrite np_sum_snoc, length_app, Nat.add_comm. simpl length.
  destruct l as [|a l].
  - reflexivity.
  - change (sum_upto ?f (1 + ?n)) with (sum_upto f (S n)).
    remember (a :: l) as m eqn:Em.
    assert (Hlen : length m = S (length l)) by (subst m; reflexivity).
    rewrite Hlen.
    change (sum_upto ?f (S (S ?n))) with (sum_upto f (S n) + f (S n))%sc.
    rewrite <- Hlen.
    rewrite app_nth2 by lia. rewrite Nat.sub_diag. simpl nth at 2.
    f_equal. rewrite IH. apply sum_upto_ext.
    intros i Hi. now rewrite app_nth1.
Qed.

Lemma zip_with_length {A B C} (f : A -> B -> C) (l : list A) (m : list B) :
  length l = length m -> length (zip_with f l m) = length l.
Proof.
  revert m; induction l as [|a l IH]; intros [|b m] E; simpl in *;
    try discriminate; auto.
Qed.

Lemma zip_with_nth {A B C} (f : A -> B -> C) (l : list A) (m : list B)
    (da : A) (db : B) (dc : C) (i : nat) :
  length l = length m -> i < length l ->
  nth i (zip_with f l m) dc = f (nth i l da) (nth i m db).
Proof.
  revert m i; induction l as [|a l IH]; intros [|b m] [|i] E Hi; simpl in *;
    try discriminate; try lia; auto.
  apply IH; lia.
Qed.

Lemma map_nth_in {A B} (f : A -> B) (l : list A) (da : A) (db : B) (i : nat) :
  i < length l -> nth i (map f l) db = f (nth i l da).
Proof.
  intros Hi. rewrite (nth_indep _ db (f da)) by now rewrite length_map.
  apply map_nth.
Qed.

End FormulaFacts.

(** ** C1: [calculate_oks] computes the mean similarity *)

Section ScoreIsFormula.

Context {F : Type} `{Scalar F}.

Lemma shape_eqb_refl (s : list nat) : shape_eqb s s = true.
Proof. unfold shape_eqb. now destruct (list_eq_dec Nat.eq_dec s s). Qed.

Lemma shape_eqb_true (s t : list nat) : shape_eqb s t = true <-> s = t.
Proof.
  unfold shape_eqb. destruct (list_eq_dec Nat.eq_dec s t); split;
    congruence.
Qed.

Lemma squared_distances_rows (p r : list (F * F)) :
  squared_distances (Arr2 p) (Arr2 r) =
    Ok (map (fun q => (fst q + snd q)%sc)
          (map (fun q => (square (fst q), square (snd q)))
             (zip_with (fun a b => ((fst a - fst b)%sc, (snd a - snd b)%sc))
                p r))).
Proof. reflexivity. Qed.

Lemma squared_distances_length (p r : list (F * F)) (dists : list F) :
  length p = length r ->
  squared_distances (Arr2 p) (Arr2 r) = Ok dists ->
  length dists = length p.
Proof.
  intros E Hd. rewrite squared_distances_rows in Hd. inversion Hd; subst.
  now rewrite !length_map, zip_with_length.
Qed.

Lemma squared_distances_nth (p r : list (F * F)) (dists : list F) (i : nat) (d : F) :
  length p = length r -> i < length p ->
  squared_distances (Arr2 p) (Arr2 r) = Ok dists ->
  nth i dists d = d_ p r i.
Proof.
  intros E Hi Hd. rewrite squared_distances_rows in Hd. inversion Hd; subst.
  rewrite (map_nth_in _ _ (s_zero, s_zero))
    by now rewrite length_map, zip_with_length.
  rewrite (map_nth_in _ _ (s_zero, s_zero)) by now rewrite zip_with_length.
  rewrite (zip_with_nth _ _ _ (s_zero, s_zero) (s_zero, s_zero)) by assumption.
  reflexivity.
Qed.

Lemma variances_length (sigmas : list F) (area : F) :
  length (variances sigmas area) = length sigmas.
Proof. unfold variances. now rewrite !length_map. Qed.

Lemma variances_nth (sigmas : list F) (area : F) (i : nat) (d : F) :
  i < length sigmas -> nth i (variances sigmas area) d = v_ sigmas area i.
Proof.
  intros Hi. unfold variances, v_.
  rewrite (map_nth_in _ _ s_zero) by now rewrite !length_map.
  rewrite (map_nth_in _ _ s_zero) by now rewrite length_map.
  rewrite (map_nth_in _ _ s_zero) by assumption.
  reflexivity.
Qed.

Lemma broadcast_same_length (f : F -> F -> F) (a b : list F) :
  length a = length b -> broadcast f a b = Ok (zip_with f a b).
Proof. intros E. unfold broadcast. now rewrite E, Nat.eqb_refl. Qed.

(** With the three lengths equal, the call returns, and its value is the
    mean of the per-keypoint similarities. *)
Lemma calculate_oks_equal_lengths (p r : list (F * F)) (sigmas : list F) (area : F) :
  length p = length r -> length sigmas = length p ->
  calculate_oks (Arr2 p) (Arr2 r) sigmas area =
    Ok (np_mean (similarities p r sigmas area)).
Proof.
  intros E Es. unfold calculate_oks. simpl shape.
  rewrite E, shape_eqb_refl. simpl negb. cbv iota.
  rewrite squared_distances_rows. simpl bind.
  unfold exponents. rewrite broadcast_same_length; [reflexivity|].
  rewrite !length_map, zip_with_length, variances_length by assumption.
  congruence.
Qed.

Lemma similarities_length (p r : list (F * F)) (sigmas : list F) (area : F) :
  length p = length r -> length sigmas = length p ->
  length (similarities p r sigmas area) = length p.
Proof.
  intros E Es. unfold similarities.
  rewrite length_map, zip_with_length; rewrite !length_map, zip_with_length;
    try assumption; try reflexivity.
  rewrite variances_length. congruence.
Qed.

Lemma similarities_nth (p r : list (F * F)) (sigmas : list F) (area : F)
    (i : nat) (d : F) :
  length p = length r -> length sigmas = length p -> i < length p ->
  nth i (similarities p r sigmas area) d = similarity p r sigmas area i.
Proof.
  intros E Es Hi.
  assert (Hd : squared_distances (Arr2 p) (Arr2 r)
               = Ok (map (fun q => (fst q + snd q)%sc)
                       (map (fun q => (square (fst q), square (snd q)))
                          (zip_with
                             (fun a b => ((fst a - fst b)%sc, (snd a - snd b)%sc))
                             p r)))) by reflexivity.
  pose proof (@squared_distances_length p r _ E Hd) as Ld.
  set (dists := map (fun q => (fst q + snd q)%sc) _) in *.
  assert (Lv : length (variances sigmas area) = length p)
    by (rewrite variances_length; assumption).
  assert (Ln : length (map s_neg dists) = length p)
    by (rewrite length_map; assumption).
  unfold similarities, similarity. fold dists.
  rewrite (map_nth_in _ _ s_zero)
    by (rewrite zip_with_length; congruence).
  f_equal.
  rewrite (zip_with_nth _ _ _ s_zero s_zero) by congruence.
  rewrite (map_nth_in _ _ s_zero) by congruence.
  rewrite (@squared_distances_nth p r _ i s_zero E Hi Hd).
  rewrite variances_nth by congruence.
  reflexivity.
Qed.

Lemma np_sum_similarities (p r : list (F * F)) (sigmas : list F) (area : F) :
  length p = length r -> length sigmas = length p ->
  np_sum (similarities p r sigmas area)
    = sum_upto (similarity p r sigmas area) (length p).
Proof.
  intros E Es.
  rewrite (np_sum_sum_upto s_zero), similarities_length by assumption.
  apply sum_upto_ext. intros i Hi. now apply similarities_nth.
Qed.

End ScoreIsFormula.

(** C1.  For keypoint arrays [predicted] and [reference] of the same
    length, a sigma array of that length and any area, [calculate_oks]
    returns the arithmetic mean over all indices [i] of
    [exp(-d_i / v_i)], with [d_i] the squared Euclidean distance of
    [predicted[i]] and [reference[i]] and
    [v_i = 2 * sigmas[i]^2 * (area + eps)].  The statement holds for any
    scalar arithmetic, so in double precision and over the reals, and
    needs neither the sign of the sigmas nor that of the area. *)
Theorem calculate_oks_is_mean_similarity
    {F : Type} `{Scalar F}
    (predicted reference : list (F * F)) (sigmas : list F) (area : F) :
  length predicted = length reference ->
  length sigmas = length predicted ->
  calculate_oks (Arr2 predicted) (Arr2 reference) sigmas area
    = Ok (mean_similarity predicted reference sigmas area).
Proof.
  intros E Es.
  rewrite calculate_oks_equal_lengths by assumption.
  f_equal. unfold np_mean, mean_similarity.
  rewrite similarities_length by assumption.
  f_equal. now apply np_sum_similarities.
Qed.

Lemma calculate_oks_is_mean_similarity_witness :
  calculate_oks (Arr2 sample_predicted) (Arr2 sample_reference)
      sample_sigmas 1%R
    = Ok (mean_similarity sample_predicted sample_reference sample_sigmas 1%R).
Proof.
  apply (@calculate_oks_is_mean_similarity R ideal); reflexivity.
Defined.


(** ** The score over the reals *)

Section IdealScore.

Open Scope R_scope.

Lemma ideal_eps_pos : 0 < s_eps (F:=R).
Proof. simpl. unfold ideal_eps. apply Rinv_0_lt_compat, pow_lt. lra. Qed.

Lemma sum_upto_S (f : nat -> R) (n : nat) :
  sum_upto f (S n) = sum_upto f n + f n.
Proof. destruct n; simpl; lra. Qed.

Lemma sum_upto_le (f g : nat -> R) (n : nat) :
  (forall j, (j < n)%nat -> f j <= g j) -> sum_upto f n <= sum_upto g n.
Proof.
  induction n as [|n IH]; intros Hle.
  - simpl. lra.
  - rewrite !sum_upto_S.
    assert (f n <= g n) by (apply Hle; lia).
    assert (sum_upto f n <= sum_upto g n) by (apply IH; intros; apply Hle; lia).
    lra.
Qed.

Lemma sum_upto_lt (f g : nat -> R) (n i : nat) :
  (i < n)%nat ->
  (forall j, (j < n)%nat -> f j <= g j) ->
  f i < g i ->
  sum_upto f n < sum_upto g n.
Proof.
  induction n as [|n IH]; intros Hi Hle Hlt; [lia|].
  rewrite !sum_upto_S.
  assert (Hn : sum_upto f n <= sum_upto g n)
    by (apply sum_upto_le; intros; apply Hle; lia).
  destruct (Nat.eq_dec i n) as [->|Hne].
  - lra.
  - assert (sum_upto f n < sum_upto g n)
      by (apply IH; [lia | intros; apply Hle; lia | assumption]).
    assert (f n <= g n) by (apply Hle; lia).
    lra.
Qed.

Lemma sum_upto_const (c : R) (n : nat) :
  sum_upto (fun _ => c) n = INR n * c.
Proof.
  induction n as [|n IH].
  - simpl. lra.
  - rewrite sum_upto_S, IH, S_INR. lra.
Qed.

Lemma nth_positive (sigmas : list R) (i : nat) :
  Forall (fun s => 0 < s) sigmas -> (i < length sigmas)%nat ->
  0 < nth i sigmas 0.
Proof.
  intros Hpos Hi. rewrite Forall_forall in Hpos.
  apply Hpos, nth_In, Hi.
Qed.

(** The guard of line 29: with positive sigmas and a non-negative area
    every variance scale is positive, so no division is by zero. *)
Lemma v_positive (sigmas : list R) (area : R) (i : nat) :
  Forall (fun s => 0 < s) sigmas -> 0 <= area -> (i < length sigmas)%nat ->
  0 < v_ sigmas area i.
Proof.
  intros Hpos Harea Hi. unfold v_. simpl.
  pose proof (nth_positive Hpos Hi) as Hs.
  pose proof ideal_eps_pos as He. simpl in He.
  apply Rmult_lt_0_compat; [|lra].
  apply Rmult_lt_0_compat; [lra|].
  now apply Rmult_lt_0_compat.
Qed.

Lemma decay_decreasing (d d' v : R) :
  0 < v -> d < d' -> exp (- d' / v) < exp (- d / v).
Proof.
  intros Hv Hd. apply exp_increasing.
  unfold Rdiv. apply Rmult_lt_compat_r; [now apply Rinv_0_lt_compat | lra].
Qed.

Lemma d_same (p : list (R * R)) (i : nat) : d_ p p i = 0.
Proof. unfold d_. simpl. ring. Qed.

End IdealScore.

(** C9 (read over the reals, for at least one keypoint).  With positive
    sigmas and a non-negative area: the score of a non-empty keypoint
    array against itself is exactly 1; and when two inputs of the same
    length agree in every squared distance [d_j] but one, [d_i], the input
    with the larger [d_i] has the strictly smaller score. *)
Theorem ideal_score_one_and_strictly_decreasing
    (sigmas : list R) (area : R) :
  Forall (fun s => (0 < s)%R) sigmas -> (0 <= area)%R ->
  (forall p : list (R * R),
      0 < length p -> length sigmas = length p ->
      calculate_oks (Arr2 p) (Arr2 p) sigmas area = Ok 1%R)
  /\
  (forall (p r p' r' : list (R * R)) (i : nat),
      length p = length r -> length p' = length r' ->
      length p' = length p -> length sigmas = length p ->
      i < length p ->
      (forall j, j < length p -> j <> i -> d_ p' r' j = d_ p r j) ->
      (d_ p r i < d_ p' r' i)%R ->
      exists x x' : R,
        calculate_oks (Arr2 p) (Arr2 r) sigmas area = Ok x
        /\ calculate_oks (Arr2 p') (Arr2 r') sigmas area = Ok x'
        /\ (x' < x)%R).
Proof.
  intros Hpos Harea. split.
  - intros p Hp Es.
    rewrite calculate_oks_equal_lengths by auto.
    f_equal. unfold np_mean.
    rewrite similarities_length, np_sum_similarities by auto.
    rewrite (sum_upto_ext _ (fun _ => 1%R)).
    + rewrite sum_upto_const. simpl.
      assert (INR (length p) <> 0%R) by (apply not_0_INR; lia).
      now field.
    + intros i Hi. unfold similarity. rewrite d_same. simpl.
      unfold Rdiv. rewrite Ropp_0, Rmult_0_l. apply exp_0.
  - intros p r p' r' i E E' Epp Es Hi Hsame Hlt.
    exists (np_mean (similarities p r sigmas area)),
           (np_mean (similarities p' r' sigmas area)).
    split; [apply calculate_oks_equal_lengths; auto|].
    split; [apply calculate_oks_equal_lengths; congruence|].
    unfold np_mean.
    rewrite !similarities_length, !np_sum_similarities by congruence.
    rewrite Epp. simpl.
    assert (HK : (0 < INR (length p))%R) by (apply lt_0_INR; lia).
    unfold Rdiv. apply Rmult_lt_compat_r; [now apply Rinv_0_lt_compat|].
    assert (Hv : forall j, j < length p -> (0 < v_ sigmas area j)%R)
      by (intros j Hj; apply v_positive; auto; congruence).
    apply sum_upto_lt with (i := i); [assumption | | ].
    + intros j Hj. unfold similarity.
      destruct (Nat.eq_dec j i) as [->|Hne].
      * left. apply (decay_decreasing (Hv i Hi) Hlt).
      * rewrite (Hsame j Hj Hne). right. reflexivity.
    + unfold similarity. apply (decay_decreasing (Hv i Hi) Hlt).
Qed.

Lemma ideal_score_one_and_strictly_decreasing_witness :
  calculate_oks (Arr2 sample_reference) (Arr2 sample_reference)
      sample_sigmas 1%R = Ok 1%R
  /\ exists x x' : R,
       calculate_oks (Arr2 sample_reference) (Arr2 sample_reference)
           sample_sigmas 1%R = Ok x
       /\ calculate_oks (Arr2 sample_predicted) (Arr2 sample_reference)
           sample_sigmas 1%R = Ok x'
       /\ (x' < x)%R.
Proof.
  destruct (@ideal_score_one_and_strictly_decreasing sample_sigmas 1%R)
    as [Hone Hdec].
  - unfold sample_sigmas. repeat constructor; lra.
  - lra.
  - split.
    + apply Hone; [simpl; lia | reflexivity].
    + apply (Hdec sample_reference sample_reference
                  sample_predicted sample_reference 0);
        try reflexivity.
      * simpl. lia.
      * intros [|[|j]] Hj Hne; [ lia | | simpl in Hj; lia ].
        unfold d_. simpl. ring.
      * unfold d_. simpl. lra.
Defined.

(** In double precision the two parts of C9 fail at the edges, whatever
    [np.exp] computes: the score of two empty keypoint arrays is NaN, not
    1.0; and two squared distances [2^1000 < 2^1001] both overflow the
    quotient of line 30 to minus infinity, so the scores are equal. *)
Lemma binary64_score_not_one_not_strict :
  (forall fexp : float -> float,
      @calculate_oks float (binary64 fexp) (Arr2 []) (Arr2 []) [] 0%float
        = Ok nan)
  /\ (forall fexp : float -> float,
        @squared_distances float (binary64 fexp) (Arr2 origin) (Arr2 far)
          = Ok [0x1p1000%float]
        /\ @squared_distances float (binary64 fexp) (Arr2 origin) (Arr2 farther)
          = Ok [0x1p1001%float]
        /\ PrimFloat.ltb 0x1p1000 0x1p1001 = true
        /\ @calculate_oks float (binary64 fexp) (Arr2 origin) (Arr2 far)
             [1%float] 0%float
           = Ok (fexp neg_infinity / 1)%float
        /\ @calculate_oks float (binary64 fexp) (Arr2 origin) (Arr2 farther)
             [1%float] 0%float
           = Ok (fexp neg_infinity / 1)%float).
Proof.
  split; intros fexp.
  - reflexivity.
  - repeat split; reflexivity.
Qed.

(** ** C8: the epsilon guard at area 0 *)

Lemma variances_positive (sigmas : list R) (area : R) :
  Forall (fun s => (0 < s)%R) sigmas -> (0 <= area)%R ->
  Forall (fun v => (0 < v)%R) (variances sigmas area).
Proof.
  intros Hpos Harea. pose proof ideal_eps_pos as He. simpl in He.
  unfold variances. rewrite !map_map.
  induction Hpos as [|s l Hs _ IH]; simpl; constructor; [|exact IH].
  unfold square. simpl.
  apply Rmult_lt_0_compat; [|lra].
  apply Rmult_lt_0_compat; [lra|].
  now apply Rmult_lt_0_compat.
Qed.

(** C8.  At area 0 the divisor of line 30 is [2 * sigma^2 * eps], which
    is not zero, so the quotient is an ordinary number and the call
    returns a score.
    - Over the reals, for any inputs of equal length with positive
      sigmas, every variance is positive and the call returns; for the
      example [K = 1], [sigmas = [1]], [predicted = [(0,0)]],
      [reference = [(1,0)]] it returns exactly [exp(-1 / (2*1*eps))], a
      positive number.
    - In double precision, for the same example, the variance is
      [2^-51], the quotient is [-1 / (2*1*eps) = -2^51], and the call
      returns the mean of the single similarity [np.exp(-2^51)]. *)
Theorem zero_area_is_guarded :
  (forall (p r : list (R * R)) (sigmas : list R),
      length p = length r -> length sigmas = length p ->
      Forall (fun s => (0 < s)%R) sigmas ->
      Forall (fun v => (0 < v)%R) (variances sigmas 0%R)
      /\ exists score : R,
           calculate_oks (Arr2 p) (Arr2 r) sigmas 0%R = Ok score)
  /\ calculate_oks (Arr2 unit_predicted) (Arr2 unit_reference) [1%R] 0%R
       = Ok (exp (- 1 / (2 * 1 * ideal_eps)))
  /\ (0 < exp (- 1 / (2 * 1 * ideal_eps)))%R
  /\ (forall fexp : float -> float,
        @variances float (binary64 fexp) [1%float] 0%float = [0x1p-51%float]
        /\ @exponents float (binary64 fexp) [1%float] [0x1p-51%float]
             = Ok [(- 1 / (2 * 1 * 0x1p-52))%float]
        /\ (- 1 / (2 * 1 * 0x1p-52))%float = (-0x1p51)%float
        /\ @calculate_oks float (binary64 fexp) (Arr2 origin) (Arr2 unit_right)
             [1%float] 0%float
           = Ok (@np_mean float (binary64 fexp)
                   [fexp (- 1 / (2 * 1 * 0x1p-52))%float])).
Proof.
  split; [|split; [|split]].
  - intros p r sigmas E Es Hpos. split.
    + apply variances_positive; [assumption | lra].
    + eexists. apply calculate_oks_equal_lengths; assumption.
  - unfold calculate_oks, unit_predicted, unit_reference. simpl.
    unfold np_mean, square. simpl. f_equal.
    pose proof ideal_eps_pos as He. simpl in He.
    replace ((0 - 1) * (0 - 1) + (0 - 0) * (0 - 0))%R with 1%R by ring.
    replace (0 + ideal_eps)%R with ideal_eps by ring.
    replace (2 * (1 * 1) * ideal_eps)%R with (2 * 1 * ideal_eps)%R by ring.
    unfold Rdiv at 1. rewrite Rinv_1, Rmult_1_r.
    reflexivity.
  - apply exp_pos.
  - intros fexp. repeat split; reflexivity.
Qed.

(** ** C6: lengths that disagree *)

Section LengthMismatch.

Context {F : Type} `{Scalar F}.

Lemma shape_mismatch_asserts (pred_keypoints gt_keypoints : ndarray F)
    (sigmas : list F) (area : F) :
  shape pred_keypoints <> shape gt_keypoints ->
  calculate_oks pred_keypoints gt_keypoints sigmas area
    = Raise (AssertionError "Keypoints shape mismatch").
Proof.
  intros Hne. unfold calculate_oks.
  destruct (shape_eqb (shape pred_keypoints) (shape gt_keypoints)) eqn:Eb.
  - apply shape_eqb_true in Eb. contradiction.
  - reflexivity.
Qed.

Lemma broadcast_incompatible (f : F -> F -> F) (a b : list F) :
  length a <> length b -> length a <> 1 -> length b <> 1 ->
  broadcast f a b = Raise (ValueError "operands could not be broadcast together").
Proof.
  intros Hab Ha Hb. unfold broadcast.
  apply Nat.eqb_neq in Hab. rewrite Hab.
  destruct a as [|x [|x' a]]; destruct b as [|y [|y' b]]; simpl in *;
    try reflexivity; try contradiction.
Qed.

Lemma broadcast_stretches (f : F -> F -> F) (a b : list F) :
  length a = 1 \/ length b = 1 -> exists l, broadcast f a b = Ok l.
Proof.
  intros Hone. unfold broadcast.
  destruct (Nat.eqb (length a) (length b)); [eexists; reflexivity|].
  destruct Hone as [Ha|Hb].
  - destruct a as [|x [|x' a]]; try discriminate. eexists; reflexivity.
  - destruct b as [|y [|y' b]]; try discriminate.
    destruct a as [|x [|x' a]]; eexists; reflexivity.
Qed.

End LengthMismatch.

(** C6 (amended).  When the lengths of [predicted], [reference] and
    [sigmas] are not all equal:
    - if [predicted] and [reference] differ in length, the call fails
      with the assertion error "Keypoints shape mismatch";
    - if they agree on [K] and the sigma array has another length [S],
      with neither [K] nor [S] equal to 1, the call fails with NumPy's
      broadcasting error;
    - if they agree and [K] or [S] is 1, NumPy stretches the array of
      length 1 and the call returns a score. *)
Theorem unequal_lengths_outcome
    {F : Type} `{Scalar F}
    (predicted reference : list (F * F)) (sigmas : list F) (area : F) :
  ~ (length predicted = length reference
     /\ length sigmas = length predicted) ->
  (length predicted <> length reference ->
     calculate_oks (Arr2 predicted) (Arr2 reference) sigmas area
       = Raise (AssertionError "Keypoints shape mismatch"))
  /\ (length predicted = length reference ->
      length predicted <> 1 -> length sigmas <> 1 ->
      calculate_oks (Arr2 predicted) (Arr2 reference) sigmas area
        = Raise (ValueError "operands could not be broadcast together"))
  /\ (length predicted = length reference ->
      length predicted = 1 \/ length sigmas = 1 ->
      exists score,
        calculate_oks (Arr2 predicted) (Arr2 reference) sigmas area
          = Ok score).
Proof.
  intros Hnot.
  remember (map (fun q => (fst q + snd q)%sc)
              (map (fun q => (square (fst q), square (snd q)))
                 (zip_with
                    (fun a b => ((fst a - fst b)%sc, (snd a - snd b)%sc))
                    predicted reference))) as dists eqn:Edists.
  assert (Hd : squared_distances (Arr2 predicted) (Arr2 reference) = Ok dists)
    by (subst dists; reflexivity).
  clear Edists.
  split; [|split].
  - intros Hne. apply shape_mismatch_asserts. simpl. congruence.
  - intros E HK HS.
    pose proof (squared_distances_length E Hd) as Ld.
    unfold calculate_oks. simpl shape. rewrite E, shape_eqb_refl.
    simpl negb. cbv iota. rewrite Hd. simpl bind. unfold exponents.
    rewrite broadcast_incompatible; [reflexivity | | | ];
      rewrite ?length_map, ?variances_length; try congruence.
    rewrite Ld. intros Eq. apply Hnot. split; congruence.
  - intros E Hone.
    pose proof (squared_distances_length E Hd) as Ld.
    unfold calculate_oks. simpl shape. rewrite E, shape_eqb_refl.
    simpl negb. cbv iota. rewrite Hd. simpl bind. unfold exponents.
    destruct (@broadcast_stretches F s_div (map s_neg dists)
                (variances sigmas area)) as [args Hargs].
    + rewrite length_map, variances_length, Ld. exact Hone.
    + rewrite Hargs. simpl. eexists. reflexivity.
Qed.

Lemma unequal_lengths_outcome_witness :
  calculate_oks (Arr2 sample_predicted) (Arr2 unit_reference) sample_sigmas 1%R
    = Raise (AssertionError "Keypoints shape mismatch")
  /\ calculate_oks (Arr2 sample_predicted) (Arr2 sample_reference)
       coco_sigmas 1%R
     = Raise (ValueError "operands could not be broadcast together")
  /\ exists score,
       calculate_oks (Arr2 unit_predicted) (Arr2 unit_reference)
         sample_sigmas 1%R = Ok score.
Proof.
  split; [|split].
  - apply (@unequal_lengths_outcome R ideal sample_predicted unit_reference
             sample_sigmas 1%R).
    + simpl. intros [E _]. discriminate E.
    + simpl. discriminate.
  - apply (@unequal_lengths_outcome R ideal sample_predicted sample_reference
             coco_sigmas 1%R).
    + simpl. intros [_ E]. discriminate E.
    + reflexivity.
    + simpl. discriminate.
    + simpl. discriminate.
  - apply (@unequal_lengths_outcome R ideal unit_predicted unit_reference
             sample_sigmas 1%R).
    + simpl. intros [_ E]. discriminate E.
    + reflexivity.
    + left. reflexivity.
Defined.

(** Against C6 as stated: one keypoint on each side and the 17 COCO
    sigmas have different lengths, and the call returns a score. *)
Lemma one_keypoint_against_coco_sigmas_is_scored :
  length unit_predicted = 1 /\ length unit_reference = 1
  /\ length coco_sigmas = 17
  /\ exists score,
       calculate_oks (Arr2 unit_predicted) (Arr2 unit_reference)
         coco_sigmas 1%R = Ok score.
Proof.
  repeat split. eexists. reflexivity.
Qed.

(** ** The batch loop *)

Section BatchLoop.

Context {F : Type} `{Scalar F}.
Variable w : World F.
Variable sigmas : list F.

Lemma batch_loop_app (before after : list string) (st : state F) :
  batch_loop w sigmas (before ++ after) st =
    match batch_loop w sigmas before st with
    | Finished st' => batch_loop w sigmas after st'
    | Crashed e st' => Crashed e st'
    end.
Proof.
  revert st; induction before as [|gt_file before IH]; intros st;
    [reflexivity|].
  simpl.
  destruct (negb (path_exists w (image_file_of gt_file))); [apply IH|].
  destruct (score_pair w sigmas gt_file (image_file_of gt_file));
    [apply IH | reflexivity].
Qed.

Lemma batch_loop_missing (gt_file : string) (rest : list string) (st : state F) :
  path_exists w (image_file_of gt_file) = false ->
  batch_loop w sigmas (gt_file :: rest) st =
    batch_loop w sigmas rest
      (print (Text ("Generated image not found for " ++ gt_file)%string) st).
Proof. intros Hno. simpl. now rewrite Hno. Qed.


Lemma batch_loop_raised (gt_file : string) (rest : list string) (st : state F)
    (e : exn) :
  path_exists w (image_file_of gt_file) = true ->
  score_pair w sigmas gt_file (image_file_of gt_file) = Raise e ->
  batch_loop w sigmas (gt_file :: rest) st = Crashed e st.
Proof. intros Hyes Hs. simpl. now rewrite Hyes, Hs. Qed.

End BatchLoop.




(** ** Errors inside a pair *)

Section PairErrors.

Context {F : Type} `{Scalar F}.
Variable w : World F.
Variable sigmas : list F.

(** The three sources of a per-pair exception. *)
Lemma score_pair_detector_error (gt_file image_file : string) (e : exn) :
  apply_openpose w (path_join ground_truth_folder gt_file) = Raise e ->
  score_pair w sigmas gt_file image_file = Raise e.
Proof. intros He. unfold score_pair, extract_pose. now rewrite He. Qed.

Lemma score_pair_empty_reference (gt_file image_file : string)
    (gt_map pred_map : list (option (F * F))) :
  apply_openpose w (path_join ground_truth_folder gt_file) = Ok gt_map ->
  collect_keypoints gt_map = [] ->
  apply_openpose w image_file = Ok pred_map ->
  score_pair w sigmas gt_file image_file =
    Raise (IndexError "too many indices for array: array is 1-dimensional, but 2 were indexed").
Proof.
  intros Hgt Hnil Hpred. unfold score_pair, extract_pose.
  rewrite Hgt. simpl. rewrite Hpred. simpl. rewrite Hnil. reflexivity.
Qed.

Lemma bounding_box_area_rows (k : F * F) (rows : list (F * F)) :
  exists area, bounding_box_area (Arr2 (k :: rows)) = Ok area.
Proof. eexists. reflexivity. Qed.

Lemma score_pair_shape_mismatch (gt_file image_file : string)
    (gt_map pred_map : list (option (F * F))) :
  apply_openpose w (path_join ground_truth_folder gt_file) = Ok gt_map ->
  apply_openpose w image_file = Ok pred_map ->
  collect_keypoints gt_map <> [] ->
  length (collect_keypoints pred_map) <> length (collect_keypoints gt_map) ->
  score_pair w sigmas gt_file image_file =
    Raise (AssertionError "Keypoints shape mismatch").
Proof.
  intros Hgt Hpred Hne Hlen. unfold score_pair, extract_pose.
  rewrite Hgt. cbn [bind]. rewrite Hpred. cbn [bind].
  destruct (collect_keypoints gt_map) as [|k rows] eqn:Eg; [contradiction|].
  cbn [np_array].
  destruct (bounding_box_area_rows k rows) as [area ->]. cbn [bind].
  apply shape_mismatch_asserts.
  destruct (collect_keypoints pred_map); simpl in *; congruence.
Qed.

End PairErrors.

(** C2 (amended).  An exception raised while a pair is processed is not
    caught.  When the entries before [gt_file] went through and the
    generated image of [gt_file] exists, any exception of its pair ends
    the run: the output is what the entries before printed, [gt_file]
    gets no line, the entries after it are not processed and no summary
    is printed.  This is so for a failure of the detector, for a
    ground-truth image without detected joints (IndexError in the
    bounding box) and for keypoint arrays of different lengths (the
    assertion of [calculate_oks]). *)
Theorem pair_error_ends_the_run
    {F : Type} `{Scalar F} (w : World F) (sigmas : list F)
    (before after : list string) (gt_file : string) (st : state F) :
  sorted (listdir_ground_truth w) = before ++ gt_file :: after ->
  batch_loop w sigmas before initial = Finished st ->
  path_exists w (image_file_of gt_file) = true ->
  (forall e : exn,
      score_pair w sigmas gt_file (image_file_of gt_file) = Raise e ->
      main w sigmas = Crashed e st)
  /\ (forall e : exn,
        apply_openpose w (path_join ground_truth_folder gt_file) = Raise e ->
        main w sigmas = Crashed e st)
  /\ (forall gt_map pred_map : list (option (F * F)),
        apply_openpose w (path_join ground_truth_folder gt_file) = Ok gt_map ->
        apply_openpose w (image_file_of gt_file) = Ok pred_map ->
        (collect_keypoints gt_map = [] ->
         main w sigmas =
           Crashed (IndexError "too many indices for array: array is 1-dimensional, but 2 were indexed") st)
        /\ (collect_keypoints gt_map <> [] ->
            length (collect_keypoints pred_map)
              <> length (collect_keypoints gt_map) ->
            main w sigmas =
              Crashed (AssertionError "Keypoints shape mismatch") st)).
Proof.
  intros Hls Hbefore Hyes.
  assert (Hend : forall e : exn,
             score_pair w sigmas gt_file (image_file_of gt_file) = Raise e ->
             main w sigmas = Crashed e st).
  { intros e Hraise. unfold main.
    rewrite Hls, batch_loop_app, Hbefore.
    now rewrite (batch_loop_raised w sigmas gt_file after st Hyes Hraise). }
  split; [exact Hend|]. split.
  - intros e He. now apply Hend, score_pair_detector_error.
  - intros gt_map pred_map Hgt Hpred. split.
    + intros Hnil. apply Hend.
      now apply score_pair_empty_reference with (gt_map := gt_map)
                                                 (pred_map := pred_map).
    + intros Hne Hlen. apply Hend.
      now apply score_pair_shape_mismatch with (gt_map := gt_map)
                                                (pred_map := pred_map).
Qed.

Lemma pair_error_ends_the_run_witness :
  main joint_missed_world sample_sigmas =
    Crashed (AssertionError "Keypoints shape mismatch")
      {| oks_scores := []; stdout := [] |}.
Proof.
  destruct (@pair_error_ends_the_run R ideal joint_missed_world sample_sigmas
              [] ["b.png"%string] "a.png" initial)
    as [_ [_ Hkinds]]; [reflexivity | reflexivity | reflexivity | ].
  apply (Hkinds (map Some sample_reference) [Some (0, 0)%R; None]).
  - reflexivity.
  - reflexivity.
  - discriminate.
  - simpl. discriminate.
Defined.

(** Against C2 as stated: the detector misses a joint in the generated
    [a.png]; the pair of [b.png] can be scored, yet the run ends at
    [a.png] with the assertion error, without output. *)
Lemma shape_mismatch_aborts_the_run :
  sorted (listdir_ground_truth joint_missed_world) = ["a.png"; "b.png"]%string
  /\ (exists s : R,
        score_pair joint_missed_world sample_sigmas
          "b.png" "generated_images/b.png" = Ok s)
  /\ main joint_missed_world sample_sigmas =
       Crashed (AssertionError "Keypoints shape mismatch")
         {| oks_scores := []; stdout := [] |}.
Proof.
  split; [reflexivity|]. split; [eexists; reflexivity | reflexivity].
Qed.

(** C4 (amended).  When the detector finds no joint in a ground-truth
    image (whose generated image exists and is read), the array of its
    keypoints is one-dimensional and the indexing of line 76 raises
    IndexError.  Nothing catches it: the loop ends there, no line is
    printed for the pair and the entries after it are not processed. *)
Theorem empty_reference_raises_index_error
    {F : Type} `{Scalar F} (w : World F) (sigmas : list F)
    (gt_file : string) (rest : list string) (st : state F)
    (gt_map pred_map : list (option (F * F))) :
  path_exists w (image_file_of gt_file) = true ->
  apply_openpose w (path_join ground_truth_folder gt_file) = Ok gt_map ->
  collect_keypoints gt_map = [] ->
  apply_openpose w (image_file_of gt_file) = Ok pred_map ->
  extract_pose w (path_join ground_truth_folder gt_file) = Ok (Arr1 [])
  /\ bounding_box_area (Arr1 []) =
       Raise (IndexError "too many indices for array: array is 1-dimensional, but 2 were indexed")
  /\ batch_loop w sigmas (gt_file :: rest) st =
       Crashed (IndexError "too many indices for array: array is 1-dimensional, but 2 were indexed") st.
Proof.
  intros Hyes Hgt Hnil Hpred. split; [|split].
  - unfold extract_pose. rewrite Hgt. simpl. now rewrite Hnil.
  - reflexivity.
  - apply batch_loop_raised; [assumption|].
    now apply score_pair_empty_reference with (gt_map := gt_map)
                                               (pred_map := pred_map).
Qed.

Lemma empty_reference_raises_index_error_witness :
  extract_pose nothing_detected_world "poses/a.png" = Ok (Arr1 [])
  /\ bounding_box_area (F:=R) (Arr1 []) =
       Raise (IndexError "too many indices for array: array is 1-dimensional, but 2 were indexed")
  /\ batch_loop nothing_detected_world sample_sigmas
       ["a.png"; "b.png"]%string initial =
       Crashed (IndexError "too many indices for array: array is 1-dimensional, but 2 were indexed")
         initial.
Proof.
  apply (@empty_reference_raises_index_error R ideal nothing_detected_world
           sample_sigmas "a.png" ["b.png"%string] initial
           [None; None] (map Some sample_predicted));
    reflexivity.
Defined.

(** Against C4 as stated: no joint is found in the ground-truth [a.png];
    the run ends with IndexError and prints nothing, not even for
    [b.png], whose pair can be scored. *)
Lemma nothing_detected_aborts_the_run :
  apply_openpose nothing_detected_world "poses/a.png" = Ok [None; None]
  /\ (exists s : R,
        score_pair nothing_detected_world sample_sigmas
          "b.png" "generated_images/b.png" = Ok s)
  /\ main nothing_detected_world sample_sigmas =
       Crashed (IndexError "too many indices for array: array is 1-dimensional, but 2 were indexed")
         {| oks_scores := []; stdout := [] |}.
Proof.
  split; [reflexivity|]. split; [eexists; reflexivity | reflexivity].
Qed.

(** ** What [extract_pose] keeps *)

Section DetectedOnly.

Context {F : Type} `{Scalar F}.

Lemma collect_keypoints_filter (detected_map : list (option (F * F))) :
  map Some (collect_keypoints detected_map) = filter is_detected detected_map.
Proof.
  induction detected_map as [|[[x y]|] rest IH]; simpl; congruence.
Qed.

Lemma collect_keypoints_count (detected_map : list (option (F * F))) :
  length (collect_keypoints detected_map)
    + length (filter (fun point => negb (is_detected point)) detected_map)
  = length detected_map.
Proof.
  induction detected_map as [|[point|] rest IH]; simpl; lia.
Qed.

Lemma collect_keypoints_shorter (detected_map : list (option (F * F))) :
  In None detected_map ->
  length (collect_keypoints detected_map) < length detected_map.
Proof.
  pose proof (collect_keypoints_count detected_map) as Hc.
  intros Hin.
  assert (Hpos : 0 < length (filter (fun point => negb (is_detected point))
                               detected_map)).
  { assert (Hf : In None (filter (fun point : option (F * F) =>
                                    negb (is_detected point)) detected_map))
      by (apply filter_In; split; [assumption | reflexivity]).
    destruct (filter _ detected_map); [contradiction | simpl; lia]. }
  lia.
Qed.

End DetectedOnly.

(** C5 (amended).  [extract_pose] omits the joints the detector did not
    find: the array it returns holds the detected points and only them,
    in the detector's order.  Its length is the number of detected
    joints; it is shorter than the detector's output as soon as one joint
    is missing, and the points after a missing joint move to lower
    indices. *)
Theorem extract_pose_keeps_detected_only
    {F : Type} `{Scalar F} (w : World F) (image_path : string)
    (detected_map : list (option (F * F))) :
  apply_openpose w image_path = Ok detected_map ->
  exists keypoints : list (F * F),
    extract_pose w image_path = Ok (np_array keypoints)
    /\ map Some keypoints = filter is_detected detected_map
    /\ length keypoints
         + length (filter (fun point => negb (is_detected point)) detected_map)
       = length detected_map
    /\ (In None detected_map -> length keypoints < length detected_map)
    /\ (forall (before after : list (option (F * F))) (point : F * F),
           detected_map = before ++ None :: Some point :: after ->
           nth_error keypoints (length (collect_keypoints before))
             = Some point
           /\ length (collect_keypoints before) < S (length before)).
Proof.
  intros Hd. exists (collect_keypoints detected_map).
  split; [unfold extract_pose; now rewrite Hd|].
  split; [apply collect_keypoints_filter|].
  split; [apply collect_keypoints_count|].
  split; [apply collect_keypoints_shorter|].
  intros before after [x y] ->. split.
  - clear Hd. induction before as [|[q|] before IH]; simpl; auto.
  - pose proof (collect_keypoints_count before). lia.
Qed.

Lemma extract_pose_keeps_detected_only_witness :
  exists keypoints : list (R * R),
    extract_pose joint_missed_world "generated_images/a.png"
      = Ok (np_array keypoints)
    /\ map Some keypoints = [Some (0, 0)%R]
    /\ length keypoints + 1 = 2.
Proof.
  destruct (@extract_pose_keeps_detected_only R ideal joint_missed_world
              "generated_images/a.png" [Some (0, 0)%R; None] eq_refl)
    as [keypoints [He [Hf [Hc _]]]].
  exists keypoints. repeat split; assumption.
Defined.

(** Against C5 as stated: the detector reports two joints, the second
    one not found; the array handed on has one row, not two, and nothing
    marks the missing joint. *)
Lemma undetected_joint_is_omitted :
  apply_openpose joint_missed_world "generated_images/a.png"
    = Ok [Some (0, 0)%R; None]
  /\ extract_pose joint_missed_world "generated_images/a.png"
     = Ok (Arr2 [(0, 0)%R])
  /\ shape (Arr2 [(0, 0)%R]) = [1; 2].
Proof. repeat split. Qed.

(** ** [calculate_oks] on the store *)

Section Frame.

Context {F : Type} `{Scalar F}.

Lemma nth_new {A} (l : list A) (a d : A) : nth (length l) (l ++ [a]) d = a.
Proof. apply nth_middle. Qed.

Lemma nth_old {A} (l : list A) (a d : A) (n : nat) :
  n < length l -> nth n (l ++ [a]) d = nth n l d.
Proof. intros Hn. now apply app_nth1. Qed.

Lemma bindM_ok {A B} (m : M A) (k : A -> M B) (h h' : heap F) (a : A) :
  m h = (Ok a, h') -> bindM m k h = k a h'.
Proof. intros E. unfold bindM. now rewrite E. Qed.

Lemma bindM_raise {A B} (m : M A) (k : A -> M B) (h h' : heap F) (e : exn) :
  m h = (Raise e, h') -> bindM m k h = (Raise e, h').
Proof. intros E. unfold bindM. now rewrite E. Qed.

Lemma obj_subtract_run (a b : nat) (h : heap F) :
  obj_subtract a b h =
    (Ok (length (arrays h)),
     {| arrays := arrays h ++
          [np_subtract (nth a (arrays h) (Arr1 [])) (nth b (arrays h) (Arr1 []))];
        vectors := vectors h |}).
Proof. reflexivity. Qed.

Lemma obj_square_run (a : nat) (h : heap F) :
  obj_square a h =
    (Ok (length (arrays h)),
     {| arrays := arrays h ++ [np_square (nth a (arrays h) (Arr1 []))];
        vectors := vectors h |}).
Proof. reflexivity. Qed.

Lemma obj_sum_axis1_ok (a : nat) (h : heap F) (v : list F) :
  np_sum_axis1 (nth a (arrays h) (Arr1 [])) = Ok v ->
  obj_sum_axis1 a h =
    (Ok (length (vectors h)),
     {| arrays := arrays h; vectors := vectors h ++ [v] |}).
Proof.
  intros E. unfold obj_sum_axis1, bindM, read_array. now rewrite E.
Qed.

Lemma obj_sum_axis1_raise (a : nat) (h : heap F) (e : exn) :
  np_sum_axis1 (nth a (arrays h) (Arr1 [])) = Raise e ->
  obj_sum_axis1 a h = (Raise e, h).
Proof.
  intros E. unfold obj_sum_axis1, bindM, read_array. now rewrite E.
Qed.

Lemma obj_map_run (f : F -> F) (v : nat) (h : heap F) :
  obj_map f v h =
    (Ok (length (vectors h)),
     {| arrays := arrays h;
        vectors := vectors h ++ [map f (nth v (vectors h) [])] |}).
Proof. reflexivity. Qed.

Lemma obj_broadcast_ok (f : F -> F -> F) (a b : nat) (h : heap F) (v : list F) :
  broadcast f (nth a (vectors h) []) (nth b (vectors h) []) = Ok v ->
  obj_broadcast f a b h =
    (Ok (length (vectors h)),
     {| arrays := arrays h; vectors := vectors h ++ [v] |}).
Proof.
  intros E. unfold obj_broadcast, bindM, read_vector. now rewrite E.
Qed.

Lemma obj_broadcast_raise (f : F -> F -> F) (a b : nat) (h : heap F) (e : exn) :
  broadcast f (nth a (vectors h) []) (nth b (vectors h) []) = Raise e ->
  obj_broadcast f a b h = (Raise e, h).
Proof.
  intros E. unfold obj_broadcast, bindM, read_vector. now rewrite E.
Qed.

Lemma obj_mean_run (v : nat) (h : heap F) :
  obj_mean v h = (Ok (np_mean (nth v (vectors h) [])), h).
Proof. reflexivity. Qed.

(** The call on references returns what [calculate_oks] computes from
    the contents of its arguments, and only adds objects to the store. *)
Lemma calculate_oks_obj_run (h : heap F) (pred gt sigmas : nat) (area : F) :
  pred < length (arrays h) -> gt < length (arrays h) ->
  sigmas < length (vectors h) ->
  exists new_arrays new_vectors,
    calculate_oks_obj pred gt sigmas area h =
      (calculate_oks (nth pred (arrays h) (Arr1 []))
                     (nth gt (arrays h) (Arr1 []))
                     (nth sigmas (vectors h) []) area,
       {| arrays := arrays h ++ new_arrays;
          vectors := vectors h ++ new_vectors |}).
Proof.
  intros Hp Hg Hs. destruct h as [arrs vecs]. simpl in *.
  unfold calculate_oks_obj, calculate_oks.
  unfold obj_shape at 1 2. unfold bindM at 1 2 3 4. simpl.
  set (P := nth pred arrs (Arr1 [])). set (G := nth gt arrs (Arr1 [])).
  set (S := nth sigmas vecs []).
  destruct (negb (shape_eqb _ _)).
  - exists [], []. now rewrite !app_nil_r.
  - erewrite bindM_ok by apply obj_subtract_run.
    erewrite bindM_ok by apply obj_square_run.
    cbn [arrays vectors]. fold P G. rewrite nth_new.
    unfold squared_distances.
    destruct (np_sum_axis1 (np_square (np_subtract P G))) as [dists|e] eqn:Ed.
    2:{ erewrite bindM_raise
          by (apply obj_sum_axis1_raise; cbn [arrays]; rewrite nth_new;
              exact Ed).
        exists [np_subtract P G; np_square (np_subtract P G)], [].
        now rewrite app_nil_r, <- app_assoc. }
    erewrite bindM_ok
      by (apply obj_sum_axis1_ok; cbn [arrays]; rewrite nth_new; exact Ed).
    erewrite bindM_ok by apply obj_map_run.
    erewrite bindM_ok by apply obj_map_run.
    erewrite bindM_ok by apply obj_map_run.
    erewrite bindM_ok by apply obj_map_run.
    cbn [arrays vectors bind].
    rewrite !nth_new.
    rewrite !nth_old by (rewrite ?length_app; simpl; lia).
    rewrite ?nth_new. fold S.
    change (map (fun v => (v * (area + s_eps))%sc)
              (map (fun s2 => (s_two * s2)%sc) (map square S)))
      with (variances S area).
    unfold exponents.
    destruct (broadcast s_div (map s_neg dists) (variances S area))
      as [args|e] eqn:Eb.
    2:{ erewrite bindM_raise
          by (apply obj_broadcast_raise; cbn [vectors];
              rewrite nth_new, nth_old, nth_new
                by (rewrite ?length_app; simpl; lia);
              exact Eb).
        eexists [_; _], [_; _; _; _; _].
        cbn [bind]. f_equal. f_equal; now rewrite <- ?app_assoc. }
    erewrite bindM_ok
      by (apply obj_broadcast_ok; cbn [vectors];
          rewrite nth_new, nth_old, nth_new
            by (rewrite ?length_app; simpl; lia);
          exact Eb).
    erewrite bindM_ok by apply obj_map_run.
    rewrite obj_mean_run. cbn [arrays vectors bind].
    rewrite !nth_new.
    eexists [_; _], [_; _; _; _; _; _; _].
    f_equal. f_equal; now rewrite <- ?app_assoc.
Qed.


End Frame.

(** C10.  [calculate_oks] only observes its arguments.  Called on
    references to existing arrays (which may be the same object), it
    leaves the contents of [pred_keypoints], [gt_keypoints] and [sigmas],
    and of every other object of the store, as they were; what it returns
    (a score or an exception) is what the contents of the three arrays
    and the area determine; and a second call on the same references
    returns the same. *)
Theorem calculate_oks_only_observes
    {F : Type} `{Scalar F} (h : heap F) (pred gt sigmas : nat) (area : F) :
  pred < length (arrays h) -> gt < length (arrays h) ->
  sigmas < length (vectors h) ->
  let (returned, h') := calculate_oks_obj pred gt sigmas area h in
  nth pred (arrays h') (Arr1 []) = nth pred (arrays h) (Arr1 [])
  /\ nth gt (arrays h') (Arr1 []) = nth gt (arrays h) (Arr1 [])
  /\ nth sigmas (vectors h') [] = nth sigmas (vectors h) []
  /\ (forall ref, ref < length (arrays h) ->
        nth_error (arrays h') ref = nth_error (arrays h) ref)
  /\ (forall ref, ref < length (vectors h) ->
        nth_error (vectors h') ref = nth_error (vectors h) ref)
  /\ returned = calculate_oks (nth pred (arrays h) (Arr1 []))
                             (nth gt (arrays h) (Arr1 []))
                             (nth sigmas (vectors h) []) area
  /\ fst (calculate_oks_obj pred gt sigmas area h') = returned.
Proof.
  intros Hp Hg Hs.
  destruct (calculate_oks_obj_run h area Hp Hg Hs) as [na [nv E]].
  rewrite E.
  set (h' := {| arrays := arrays h ++ na; vectors := vectors h ++ nv |}).
  assert (Ep : nth pred (arrays h') (Arr1 []) = nth pred (arrays h) (Arr1 []))
    by (apply app_nth1; assumption).
  assert (Eg : nth gt (arrays h') (Arr1 []) = nth gt (arrays h) (Arr1 []))
    by (apply app_nth1; assumption).
  assert (Es : nth sigmas (vectors h') [] = nth sigmas (vectors h) [])
    by (apply app_nth1; assumption).
  repeat split; try assumption.
  - intros ref Href. now apply nth_error_app1.
  - intros ref Href. now apply nth_error_app1.
  - destruct (@calculate_oks_obj_run F _ h' pred gt sigmas area) as [na' [nv' E']];
      try (simpl; rewrite length_app; lia).
    rewrite E'. cbn [fst]. now rewrite Ep, Eg, Es.
Qed.

Lemma calculate_oks_only_observes_witness :
  let (returned, h') := calculate_oks_obj 0 1 0 1%R sample_heap in
  nth 0 (arrays h') (Arr1 []) = Arr2 sample_predicted
  /\ nth 1 (arrays h') (Arr1 []) = Arr2 sample_reference
  /\ nth 0 (vectors h') [] = sample_sigmas
  /\ returned = calculate_oks (Arr2 sample_predicted) (Arr2 sample_reference)
                             sample_sigmas 1%R
  /\ fst (calculate_oks_obj 0 1 0 1%R h') = returned.
Proof.
  pose proof (@calculate_oks_only_observes R ideal sample_heap 0 1 0 1%R) as T.
  destruct (calculate_oks_obj 0 1 0 1%R sample_heap) as [returned h'].
  destruct T as [Ep [Eg [Es [_ [_ [Eo E2]]]]]];
    [simpl; lia | simpl; lia | simpl; lia |].
  repeat split; assumption.
Defined.


(** * Further properties of the script *)

(** ** When [calculate_oks] returns *)

Section Returns.

Context {F : Type} `{Scalar F}.

Lemma broadcast_returns_iff (f : F -> F -> F) (a b : list F) :
  (exists l, broadcast f a b = Ok l)
  <-> length a = length b \/ length a = 1 \/ length b = 1.
Proof.
  split.
  - intros [l Hl].
    destruct (Nat.eq_dec (length a) (length b)) as [E|Hab]; [now left|].
    destruct (Nat.eq_dec (length a) 1) as [Ea|Ha]; [now right; left|].
    destruct (Nat.eq_dec (length b) 1) as [Eb|Hb]; [now right; right|].
    rewrite (broadcast_incompatible f a b Hab Ha Hb) in Hl. discriminate Hl.
  - intros [E|Hone].
    + eexists. now apply broadcast_same_length.
    + now apply broadcast_stretches.
Qed.

End Returns.

(** X1.  [calculate_oks] returns a score exactly when both keypoint
    arrays are two-dimensional with the same number [K] of rows and the
    sigma array has [K] entries, or [K] is 1, or there is one sigma; in
    every other case it raises. *)
Theorem calculate_oks_returns_iff
    {F : Type} `{Scalar F}
    (pred_keypoints gt_keypoints : ndarray F) (sigmas : list F) (area : F) :
  (exists score, calculate_oks pred_keypoints gt_keypoints sigmas area = Ok score)
  <->
  (exists p r : list (F * F),
      pred_keypoints = Arr2 p /\ gt_keypoints = Arr2 r
      /\ length p = length r
      /\ (length sigmas = length p \/ length p = 1 \/ length sigmas = 1)).
Proof.
  split.
  - intros [score Hs].
    destruct pred_keypoints as [v|p], gt_keypoints as [v'|r];
      unfold calculate_oks in Hs;
      destruct (shape_eqb _ _) eqn:Eb; try discriminate Hs;
      apply shape_eqb_true in Eb; simpl in Eb; try discriminate Eb;
      cbn [negb] in Hs; cbv iota in Hs.
    assert (E : length p = length r) by congruence.
    exists p, r. repeat split; try assumption.
    rewrite squared_distances_rows in Hs. simpl bind in Hs.
    unfold exponents in Hs.
    destruct (broadcast s_div _ (variances sigmas area)) as [args|e] eqn:Ha;
      [|discriminate Hs].
    assert (Hex : exists l, broadcast s_div
                     (map s_neg
                        (map (fun q => (fst q + snd q)%sc)
                           (map (fun q => (square (fst q), square (snd q)))
                              (zip_with
                                 (fun a b => ((fst a - fst b)%sc, (snd a - snd b)%sc))
                                 p r))))
                     (variances sigmas area) = Ok l)
      by (eexists; exact Ha).
    apply broadcast_returns_iff in Hex.
    rewrite !length_map, zip_with_length, variances_length in Hex by assumption.
    destruct Hex as [E1|[E1|E1]]; auto.
  - intros [p [r [-> [-> [E Hc]]]]].
    unfold calculate_oks. simpl shape. rewrite E, shape_eqb_refl.
    simpl negb. cbv iota. rewrite squared_distances_rows. simpl bind.
    unfold exponents.
    destruct (proj2 (broadcast_returns_iff s_div
                (map s_neg
                   (map (fun q => (fst q + snd q)%sc)
                      (map (fun q => (square (fst q), square (snd q)))
                         (zip_with
                            (fun a b => ((fst a - fst b)%sc, (snd a - snd b)%sc))
                            p r))))
                (variances sigmas area))) as [args Ha].
    + rewrite !length_map, zip_with_length, variances_length by assumption.
      destruct Hc as [E1|[E1|E1]]; auto.
    + rewrite Ha. simpl. eexists. reflexivity.
Qed.

(** ** Stretched operands *)

Section Stretched.

Context {F : Type} `{Scalar F}.

Lemma broadcast_left_one (f : F -> F -> F) (x : F) (b : list F) :
  broadcast f [x] b = Ok (map (f x) b).
Proof.
  unfold broadcast. destruct b as [|y [|y' b]]; reflexivity.
Qed.

Lemma broadcast_right_one (f : F -> F -> F) (a : list F) (y : F) :
  broadcast f a [y] = Ok (map (fun x => f x y) a).
Proof.
  unfold broadcast. destruct a as [|x [|x' a]]; reflexivity.
Qed.

Lemma calculate_oks_rows (p r : list (F * F)) (sigmas : list F) (area : F)
    (dists : list F) :
  length p = length r ->
  squared_distances (Arr2 p) (Arr2 r) = Ok dists ->
  calculate_oks (Arr2 p) (Arr2 r) sigmas area =
    bind (exponents dists (variances sigmas area))
         (fun args => Ok (np_mean (map s_exp args))).
Proof.
  intros E Hd. unfold calculate_oks. simpl shape.
  rewrite E, shape_eqb_refl. simpl negb. cbv iota. now rewrite Hd.
Qed.

End Stretched.

(** X2.  What the stretched cases compute.  With a single sigma, every
    keypoint is scored against the variance of that sigma: the score is
    the mean over the [K] keypoints of [exp(-d_i / v_0)].  With a single
    keypoint on each side, the one distance is scored against every
    sigma: the score is the mean over the sigmas of [exp(-d_0 / v_j)]. *)
Theorem stretched_scores
    {F : Type} `{Scalar F} (area : F) :
  (forall (p r : list (F * F)) (sigma : F),
      length p = length r ->
      calculate_oks (Arr2 p) (Arr2 r) [sigma] area =
        Ok (sum_upto (fun i => s_exp (- d_ p r i / v_ [sigma] area 0)%sc)
                     (length p)
            / s_of_nat (length p))%sc)
  /\ (forall (k k' : F * F) (sigmas : list F),
        calculate_oks (Arr2 [k]) (Arr2 [k']) sigmas area =
          Ok (sum_upto (fun j => s_exp (- d_ [k] [k'] 0 / v_ sigmas area j)%sc)
                       (length sigmas)
              / s_of_nat (length sigmas))%sc).
Proof.
  split.
  - intros p r sigma E.
    remember (map (fun q => (fst q + snd q)%sc)
                (map (fun q => (square (fst q), square (snd q)))
                   (zip_with
                      (fun a b => ((fst a - fst b)%sc, (snd a - snd b)%sc))
                      p r))) as dists eqn:Edists.
    assert (Hd : squared_distances (Arr2 p) (Arr2 r) = Ok dists)
      by (subst dists; reflexivity).
    pose proof (squared_distances_length E Hd) as Ld.
    rewrite (calculate_oks_rows [sigma] area E Hd).
    unfold exponents. change (variances [sigma] area)
      with [v_ [sigma] area 0].
    rewrite broadcast_right_one. simpl bind. f_equal.
    unfold np_mean. rewrite !length_map, Ld. f_equal.
    rewrite (np_sum_sum_upto s_zero), !length_map, Ld.
    apply sum_upto_ext. intros i Hi.
    rewrite (map_nth_in _ _ s_zero) by (rewrite !length_map; lia).
    rewrite (map_nth_in _ _ s_zero) by (rewrite length_map; lia).
    rewrite (map_nth_in _ _ s_zero) by lia.
    now rewrite (@squared_distances_nth _ _ p r dists i s_zero E Hi Hd).
  - intros k k' sigmas.
    unfold calculate_oks. simpl shape. rewrite shape_eqb_refl.
    simpl negb. cbv iota. rewrite squared_distances_rows. simpl bind.
    unfold exponents. simpl map at 1. rewrite broadcast_left_one.
    simpl bind. f_equal.
    unfold np_mean. rewrite !length_map, variances_length. f_equal.
    rewrite (np_sum_sum_upto s_zero), !length_map, variances_length.
    apply sum_upto_ext. intros j Hj.
    rewrite (map_nth_in _ _ s_zero)
      by (rewrite length_map, variances_length; lia).
    rewrite (map_nth_in _ _ s_zero) by (rewrite variances_length; lia).
    rewrite variances_nth by assumption.
    reflexivity.
Qed.

(** ** The score over the reals: range and invariances *)

Section IdealRange.

Open Scope R_scope.

Lemma fold_left_Rplus (l : list R) (a : R) :
  fold_left Rplus l a = a + fold_right Rplus 0 l.
Proof.
  revert a; induction l as [|x l IH]; intros a; simpl.
  - lra.
  - rewrite IH. lra.
Qed.

Lemma np_sum_ideal (l : list R) : np_sum l = fold_right Rplus 0 l.
Proof.
  destruct l as [|x l]; [reflexivity|].
  simpl. apply fold_left_Rplus.
Qed.

Lemma sum_in_unit_interval (l : list R) :
  Forall (fun x => 0 < x <= 1) l ->
  0 <= fold_right Rplus 0 l <= INR (length l)
  /\ (l <> [] -> 0 < fold_right Rplus 0 l).
Proof.
  induction 1 as [|x l Hx _ [IH1 IH2]].
  - simpl. split; [lra | congruence].
  - change (fold_right Rplus 0 (x :: l)) with (x + fold_right Rplus 0 l).
    change (length (x :: l)) with (S (length l)). rewrite S_INR.
    split; [lra | intros _; lra].
Qed.

Lemma np_mean_in_unit_interval (l : list R) :
  l <> [] -> Forall (fun x => 0 < x <= 1) l -> 0 < np_mean l <= 1.
Proof.
  intros Hne Hall. unfold np_mean. rewrite np_sum_ideal. simpl.
  destruct (sum_in_unit_interval Hall) as [[_ Hle] Hpos].
  specialize (Hpos Hne).
  assert (Hn : 0 < INR (length l)).
  { apply lt_0_INR. destruct l; [congruence | simpl; lia]. }
  split.
  - now apply Rdiv_lt_0_compat.
  - apply Rmult_le_reg_r with (r := INR (length l)); [assumption|].
    unfold Rdiv. rewrite Rmult_assoc, Rinv_l by lra. lra.
Qed.

Lemma decay_in_unit_interval (d v : R) :
  0 <= d -> 0 < v -> 0 < exp (- d / v) <= 1.
Proof.
  intros Hd Hv. split; [apply exp_pos|].
  assert (Hq : - d / v <= 0).
  { pose proof (Rinv_0_lt_compat v Hv) as Hi. unfold Rdiv. nra. }
  destruct Hq as [Hlt|Heq].
  - left. rewrite <- exp_0. now apply exp_increasing.
  - rewrite Heq, exp_0. lra.
Qed.

Lemma squared_distances_nonnegative (p r : list (R * R)) (dists : list R) :
  squared_distances (Arr2 p) (Arr2 r) = Ok dists ->
  Forall (fun d => 0 <= d) dists.
Proof.
  rewrite squared_distances_rows. intros Hd. inversion Hd; subst.
  rewrite !map_map. apply Forall_forall. intros d Hin.
  apply in_map_iff in Hin. destruct Hin as [q [<- _]].
  unfold square. simpl. nra.
Qed.

End IdealRange.

Section BroadcastElements.

Context {F : Type}.

Lemma zip_with_elements {A B C} (f : A -> B -> C) (l : list A) (m : list B) (z : C) :
  In z (zip_with f l m) -> exists x y, In x l /\ In y m /\ z = f x y.
Proof.
  revert m; induction l as [|a l IH]; intros [|b m] Hin; simpl in Hin;
    try contradiction.
  destruct Hin as [<-|Hin].
  - exists a, b. simpl. auto.
  - destruct (IH m Hin) as [x [y [Hx [Hy ->]]]].
    exists x, y. simpl. auto.
Qed.

Lemma broadcast_cases (f : F -> F -> F) (a b l : list F) :
  broadcast f a b = Ok l ->
  l = zip_with f a b
  \/ (exists x, a = [x] /\ l = map (f x) b)
  \/ (exists y, b = [y] /\ l = map (fun x => f x y) a).
Proof.
  unfold broadcast. intros Hb.
  destruct (Nat.eqb (length a) (length b)); [left; congruence|].
  destruct a as [|x [|x' a]].
  - destruct b as [|y [|y' b]]; try discriminate Hb.
    right; right. exists y. split; congruence.
  - right; left. exists x. split; congruence.
  - destruct b as [|y [|y' b]]; try discriminate Hb.
    right; right. exists y. split; congruence.
Qed.

Lemma broadcast_elements (f : F -> F -> F) (a b l : list F) (z : F) :
  broadcast f a b = Ok l -> In z l ->
  exists x y, In x a /\ In y b /\ z = f x y.
Proof.
  intros Hb Hin.
  destruct (broadcast_cases f a b Hb) as [-> | [[x [-> ->]] | [y [-> ->]]]].
  - now apply zip_with_elements.
  - apply in_map_iff in Hin. destruct Hin as [y [<- Hy]].
    exists x, y. simpl. auto.
  - apply in_map_iff in Hin. destruct Hin as [x [<- Hx]].
    exists x, y. simpl. auto.
Qed.

Lemma broadcast_nonempty (f : F -> F -> F) (a b l : list F) :
  broadcast f a b = Ok l -> a <> [] -> b <> [] -> l <> [].
Proof.
  intros Hb Ha Hbne.
  destruct a as [|x a]; [congruence|]. destruct b as [|y b]; [congruence|].
  destruct (broadcast_cases f _ _ Hb) as [-> | [[x0 [_ ->]] | [y0 [_ ->]]]];
    simpl; discriminate.
Qed.

End BroadcastElements.

(** X3.  Read over the reals: whenever the lengths let the call return
    (one keypoint at least, one sigma at least, positive sigmas and a
    non-negative area), the score lies in (0, 1]. *)
Theorem ideal_score_in_unit_interval
    (p r : list (R * R)) (sigmas : list R) (area : R) :
  length p = length r -> p <> [] -> sigmas <> [] ->
  length sigmas = length p \/ length p = 1 \/ length sigmas = 1 ->
  Forall (fun s => (0 < s)%R) sigmas -> (0 <= area)%R ->
  exists score : R,
    calculate_oks (Arr2 p) (Arr2 r) sigmas area = Ok score
    /\ (0 < score <= 1)%R.
Proof.
  intros E Hp Hs Hc Hpos Harea.
  remember (map (fun q => (fst q + snd q)%sc)
              (map (fun q => (square (fst q), square (snd q)))
                 (zip_with
                    (fun a b => ((fst a - fst b)%sc, (snd a - snd b)%sc))
                    p r))) as dists eqn:Edists.
  assert (Hd : squared_distances (Arr2 p) (Arr2 r) = Ok dists)
    by (subst dists; reflexivity).
  clear Edists.
  pose proof (squared_distances_length E Hd) as Ld.
  pose proof (squared_distances_nonnegative Hd) as Hnn.
  pose proof (variances_positive Hpos Harea) as Hv.
  rewrite (calculate_oks_rows sigmas area E Hd). unfold exponents.
  destruct (proj2 (broadcast_returns_iff s_div (map s_neg dists)
                     (variances sigmas area))) as [args Ha].
  { rewrite length_map, variances_length, Ld.
    destruct Hc as [Hc|[Hc|Hc]]; auto. }
  rewrite Ha. simpl bind. eexists. split; [reflexivity|].
  apply np_mean_in_unit_interval.
  - assert (args <> []).
    { eapply broadcast_nonempty; [exact Ha | | ].
      - destruct dists; [destruct p; simpl in Ld; congruence | discriminate].
      - unfold variances. destruct sigmas; [congruence | discriminate]. }
    destruct args; [congruence | discriminate].
  - apply Forall_forall. intros z Hz. apply in_map_iff in Hz.
    destruct Hz as [q [<- Hq]].
    destruct (@broadcast_elements R _ _ _ _ q Ha Hq) as [x [v [Hx [Hvin ->]]]].
    apply in_map_iff in Hx. destruct Hx as [d [<- Hdin]].
    rewrite Forall_forall in Hnn, Hv.
    apply decay_in_unit_interval; auto.
Qed.

Lemma ideal_score_in_unit_interval_witness :
  exists score : R,
    calculate_oks (Arr2 sample_predicted) (Arr2 sample_reference)
      sample_sigmas 1%R = Ok score
    /\ (0 < score <= 1)%R.
Proof.
  apply ideal_score_in_unit_interval.
  - reflexivity.
  - discriminate.
  - discriminate.
  - left. reflexivity.
  - unfold sample_sigmas. repeat constructor; lra.
  - lra.
Defined.

Section IdealInvariance.

Open Scope R_scope.

Lemma squared_distances_swap (p r : list (R * R)) :
  squared_distances (Arr2 p) (Arr2 r) = squared_distances (Arr2 r) (Arr2 p).
Proof.
  rewrite !squared_distances_rows. f_equal. rewrite !map_map.
  revert r; induction p as [|a p IH]; intros [|b r]; simpl; try reflexivity.
  rewrite IH. f_equal. unfold square. simpl. ring.
Qed.

Lemma translate_length (tx ty : R) (k : list (R * R)) :
  length (translate tx ty k) = length k.
Proof. apply length_map. Qed.

Lemma squared_distances_translate (tx ty : R) (p r : list (R * R)) :
  squared_distances (Arr2 (translate tx ty p)) (Arr2 (translate tx ty r))
    = squared_distances (Arr2 p) (Arr2 r).
Proof.
  rewrite !squared_distances_rows. f_equal. rewrite !map_map.
  revert r; induction p as [|a p IH]; intros [|b r]; simpl; try reflexivity.
  rewrite IH. f_equal. unfold square. simpl. ring.
Qed.

End IdealInvariance.

(** X4.  Read over the reals, the score does not depend on which of the
    two keypoint arrays is passed first: the call returns the same score,
    or raises the same exception, with the arguments exchanged. *)
Theorem ideal_score_symmetric
    (pred_keypoints gt_keypoints : ndarray R) (sigmas : list R) (area : R) :
  calculate_oks pred_keypoints gt_keypoints sigmas area
    = calculate_oks gt_keypoints pred_keypoints sigmas area.
Proof.
  unfold calculate_oks.
  assert (Hsym : shape_eqb (shape pred_keypoints) (shape gt_keypoints)
                 = shape_eqb (shape gt_keypoints) (shape pred_keypoints)).
  { unfold shape_eqb.
    destruct (list_eq_dec Nat.eq_dec (shape pred_keypoints) (shape gt_keypoints));
      destruct (list_eq_dec Nat.eq_dec (shape gt_keypoints) (shape pred_keypoints));
      congruence. }
  rewrite <- Hsym.
  destruct (shape_eqb (shape pred_keypoints) (shape gt_keypoints)) eqn:Eb;
    [|reflexivity].
  simpl negb. cbv iota.
  destruct pred_keypoints as [v|p], gt_keypoints as [v'|r];
    try reflexivity.
  - apply shape_eqb_true in Eb. discriminate Eb.
  - apply shape_eqb_true in Eb. discriminate Eb.
  - now rewrite squared_distances_swap.
Qed.

(** X5.  Read over the reals and for a fixed area, shifting every
    keypoint of both arrays by the same vector leaves the outcome of
    [calculate_oks] unchanged. *)
Theorem ideal_score_translation_invariant
    (tx ty : R) (p r : list (R * R)) (sigmas : list R) (area : R) :
  calculate_oks (Arr2 (translate tx ty p)) (Arr2 (translate tx ty r))
      sigmas area
    = calculate_oks (Arr2 p) (Arr2 r) sigmas area.
Proof.
  unfold calculate_oks. simpl shape. rewrite !translate_length.
  now rewrite squared_distances_translate.
Qed.

(** ** The bounding box over the reals *)

Section IdealBox.

Open Scope R_scope.

Lemma fold_max_spec (xs : list R) (x : R) :
  In (fold_left Rmax xs x) (x :: xs)
  /\ forall y, In y (x :: xs) -> y <= fold_left Rmax xs x.
Proof.
  revert x; induction xs as [|a xs IH]; intros x.
  - simpl. split; [now left | intros y [<-|[]]; lra].
  - change (fold_left Rmax (a :: xs) x) with (fold_left Rmax xs (Rmax x a)).
    destruct (IH (Rmax x a)) as [Hin Hub]. split.
    + destruct Hin as [Hm|Hin].
      * rewrite <- Hm. apply Rmax_case; simpl; auto.
      * simpl. auto.
    + intros y [->|[->|Hy]].
      * apply Rle_trans with (Rmax y a); [apply Rmax_l|].
        apply Hub. now left.
      * apply Rle_trans with (Rmax x y); [apply Rmax_r|].
        apply Hub. now left.
      * apply Hub. now right.
Qed.

Lemma fold_min_spec (xs : list R) (x : R) :
  In (fold_left Rmin xs x) (x :: xs)
  /\ forall y, In y (x :: xs) -> fold_left Rmin xs x <= y.
Proof.
  revert x; induction xs as [|a xs IH]; intros x.
  - simpl. split; [now left | intros y [<-|[]]; lra].
  - change (fold_left Rmin (a :: xs) x) with (fold_left Rmin xs (Rmin x a)).
    destruct (IH (Rmin x a)) as [Hin Hlb]. split.
    + destruct Hin as [Hm|Hin].
      * rewrite <- Hm. apply Rmin_case; simpl; auto.
      * simpl. auto.
    + intros y [->|[->|Hy]].
      * apply Rle_trans with (Rmin y a); [|apply Rmin_l].
        apply Hlb. now left.
      * apply Rle_trans with (Rmin x y); [|apply Rmin_r].
        apply Hlb. now left.
      * apply Hlb. now right.
Qed.

Lemma bounding_box_area_unfold (k : R * R) (rows : list (R * R)) :
  bounding_box_area (Arr2 (k :: rows)) =
    Ok ((fold_left Rmax (map fst rows) (fst k)
         - fold_left Rmin (map fst rows) (fst k))
        * (fold_left Rmax (map snd rows) (snd k)
           - fold_left Rmin (map snd rows) (snd k))).
Proof. reflexivity. Qed.

Lemma Rmax_shift (a b t : R) : Rmax (a + t) (b + t) = Rmax a b + t.
Proof. unfold Rmax. destruct (Rle_dec (a + t) (b + t)), (Rle_dec a b); lra. Qed.

Lemma Rmin_shift (a b t : R) : Rmin (a + t) (b + t) = Rmin a b + t.
Proof. unfold Rmin. destruct (Rle_dec (a + t) (b + t)), (Rle_dec a b); lra. Qed.

Lemma fold_max_shift (t : R) (xs : list R) (x : R) :
  fold_left Rmax (map (fun y => y + t) xs) (x + t) = fold_left Rmax xs x + t.
Proof.
  revert x; induction xs as [|a xs IH]; intros x; [reflexivity|].
  simpl. now rewrite Rmax_shift, IH.
Qed.

Lemma fold_min_shift (t : R) (xs : list R) (x : R) :
  fold_left Rmin (map (fun y => y + t) xs) (x + t) = fold_left Rmin xs x + t.
Proof.
  revert x; induction xs as [|a xs IH]; intros x; [reflexivity|].
  simpl. now rewrite Rmin_shift, IH.
Qed.

Lemma bounding_box_area_translate (tx ty : R) (k : R * R) (rows : list (R * R)) :
  bounding_box_area (Arr2 (translate tx ty (k :: rows)))
    = bounding_box_area (Arr2 (k :: rows)).
Proof.
  unfold translate. simpl map. rewrite !bounding_box_area_unfold.
  rewrite !map_map. unfold shift_point. simpl fst. simpl snd.
  rewrite <- (map_map fst (fun y => y + tx)).
  rewrite <- (map_map snd (fun y => y + ty)).
  rewrite !fold_max_shift, !fold_min_shift. f_equal. ring.
Qed.

End IdealBox.

(** X6.  Read over the reals, the area of lines 76-77 is that of the
    tightest axis-aligned box around the ground-truth keypoints: its four
    bounds are coordinates of keypoints and every keypoint lies within
    them.  The area is never negative, and it is 0 when only one keypoint
    was detected. *)
Theorem bounding_box_is_tight (k : R * R) (rows : list (R * R)) :
  (exists min_x max_x min_y max_y : R,
      bounding_box_area (Arr2 (k :: rows))
        = Ok ((max_x - min_x) * (max_y - min_y))%R
      /\ In min_x (map fst (k :: rows)) /\ In max_x (map fst (k :: rows))
      /\ In min_y (map snd (k :: rows)) /\ In max_y (map snd (k :: rows))
      /\ (forall q, In q (k :: rows) ->
            (min_x <= fst q <= max_x)%R /\ (min_y <= snd q <= max_y)%R)
      /\ (0 <= (max_x - min_x) * (max_y - min_y))%R)
  /\ bounding_box_area (Arr2 [k]) = Ok 0%R.
Proof.
  split.
  - destruct (fold_max_spec (map fst rows) (fst k)) as [Hmx Hmx'].
    destruct (fold_min_spec (map fst rows) (fst k)) as [Hnx Hnx'].
    destruct (fold_max_spec (map snd rows) (snd k)) as [Hmy Hmy'].
    destruct (fold_min_spec (map snd rows) (snd k)) as [Hny Hny'].
    exists (fold_left Rmin (map fst rows) (fst k)),
           (fold_left Rmax (map fst rows) (fst k)),
           (fold_left Rmin (map snd rows) (snd k)),
           (fold_left Rmax (map snd rows) (snd k)).
    split; [apply bounding_box_area_unfold|].
    repeat (split; [assumption|]).
    assert (Hin : forall q : R * R, In q (k :: rows) ->
              In (fst q) (fst k :: map fst rows)
              /\ In (snd q) (snd k :: map snd rows)).
    { intros q Hq. split.
      - change (fst k :: map fst rows) with (map fst (k :: rows)).
        now apply in_map.
      - change (snd k :: map snd rows) with (map snd (k :: rows)).
        now apply in_map. }
    split.
    + intros q Hq. destruct (Hin q Hq) as [Hx Hy].
      repeat split; auto.
    + destruct (Hin k (or_introl eq_refl)) as [Hx Hy].
      pose proof (Hmx' _ Hx). pose proof (Hnx' _ Hx).
      pose proof (Hmy' _ Hy). pose proof (Hny' _ Hy).
      apply Rmult_le_pos; lra.
  - rewrite bounding_box_area_unfold. simpl. f_equal. ring.
Qed.

(** ** File names *)

Section Names.

Open Scope string_scope.

Lemma rfind_dot_none (s : string) (i : nat) :
  has_char "." s = false -> rfind_dot s i = None.
Proof.
  revert i; induction s as [|c s IH]; intros i Hno; [reflexivity|].
  simpl in *. apply orb_false_iff in Hno. destruct Hno as [Hc Hs].
  now rewrite (IH (S i) Hs), Hc.
Qed.

Lemma rfind_dot_last (base ext : string) (i : nat) :
  has_char "." ext = false ->
  rfind_dot (base ++ String "." ext) i = Some (i + String.length base).
Proof.
  intros Hno. revert i; induction base as [|c base IH]; intros i.
  - simpl. rewrite rfind_dot_none by exact Hno. f_equal. lia.
  - simpl. rewrite IH. f_equal. lia.
Qed.

Lemma length_app_string (s1 s2 : string) :
  String.length (s1 ++ s2) = String.length s1 + String.length s2.
Proof. induction s1 as [|c s1 IH]; simpl; [reflexivity | now rewrite IH]. Qed.

Lemma substring_prefix (s1 s2 : string) :
  substring 0 (String.length s1) (s1 ++ s2) = s1.
Proof.
  induction s1 as [|c s1 IH]; simpl.
  - destruct s2; reflexivity.
  - now rewrite IH.
Qed.

Lemma stem_of_base_ext (base ext : string) :
  base <> "" -> ext <> "" -> has_char "." ext = false ->
  stem (base ++ String "." ext) = base.
Proof.
  intros Hb He Hno. unfold stem.
  rewrite (rfind_dot_last base ext 0%nat Hno). simpl Nat.add.
  rewrite length_app_string. simpl String.length.
  assert (Hlb : (0 < String.length base)%nat)
    by (destruct base; [congruence | simpl; lia]).
  assert (Hle : (0 < String.length ext)%nat)
    by (destruct ext; [congruence | simpl; lia]).
  replace (Nat.ltb 0 (String.length base)) with true
    by (symmetry; apply Nat.ltb_lt; lia).
  replace (Nat.ltb (String.length base)
             (String.length base + S (String.length ext) - 1)) with true
    by (symmetry; apply Nat.ltb_lt; lia).
  simpl andb. cbv iota. apply substring_prefix.
Qed.

Lemma prefix_slash_app (s t : string) :
  s <> "" -> prefix "/" (s ++ t) = prefix "/" s.
Proof.
  intros Hs. destruct s as [|c s]; [congruence|].
  cbn [append prefix]. destruct (ascii_dec "/" c); [|reflexivity].
  destruct s, t; reflexivity.
Qed.

Lemma path_join_plain (a b : string) :
  a <> "" -> ends_with_slash a = false -> prefix "/" b = false ->
  path_join a b = a ++ "/" ++ b.
Proof.
  intros Ha Hs Hb. unfold path_join. rewrite Hb, Hs.
  destruct (String.eqb_spec a ""); [contradiction | reflexivity].
Qed.

End Names.

(** X7.  Pairing goes by base name.  For a ground-truth file
    [base.ext] (a bare name as [os.listdir] gives them: [base] not empty
    and not starting with a slash, [ext] not empty and without a dot) the
    generated image looked for is [generated_images/base.png], whatever
    the extension: [base.ext] and [base.png] are paired with the same
    file. *)
Theorem candidate_shares_base_name (base ext : string) :
  base <> ""%string -> prefix "/" base = false ->
  ext <> ""%string -> has_char "." ext = false ->
  stem (base ++ "." ++ ext) = base
  /\ image_file_of (base ++ "." ++ ext)
     = ("generated_images/" ++ base ++ ".png")%string
  /\ image_file_of (base ++ "." ++ ext) = image_file_of (base ++ ".png").
Proof.
  intros Hb Hslash He Hno.
  assert (Hstem : forall e, e <> ""%string -> has_char "." e = false ->
            image_file_of (base ++ "." ++ e)
              = ("generated_images/" ++ base ++ ".png")%string).
  { intros e He' Hno'. unfold image_file_of.
    change (base ++ "." ++ e)%string with (base ++ String "." e)%string.
    rewrite (stem_of_base_ext Hb He' Hno').
    rewrite path_join_plain; [reflexivity | discriminate | reflexivity | ].
    now rewrite prefix_slash_app. }
  split; [|split].
  - change (base ++ "." ++ ext)%string with (base ++ String "." ext)%string.
    now apply stem_of_base_ext.
  - now apply Hstem.
  - rewrite (Hstem ext He Hno).
    symmetry. apply (Hstem "png"%string); [discriminate | reflexivity].
Qed.

Lemma candidate_shares_base_name_witness :
  stem "pose.v2.jpeg" = "pose.v2"%string
  /\ image_file_of "pose.v2.jpeg" = "generated_images/pose.v2.png"%string
  /\ image_file_of "pose.v2.jpeg" = image_file_of "pose.v2.png".
Proof.
  apply (@candidate_shares_base_name "pose.v2" "jpeg");
    [discriminate | reflexivity | discriminate | reflexivity].
Defined.

(** X8.  Entries whose name [Path.stem] leaves whole are paired with
    their full name followed by [.png]: a name without a dot ([README]
    with [generated_images/README.png]), a name whose only dot is its
    first character, and a name that ends with a dot.  So an entry
    without extension and the entry of the same name with [.png] are
    paired with the same generated image. *)
Theorem edge_names_pairing :
  (forall name : string,
      has_char "." name = false -> prefix "/" name = false ->
      image_file_of name = ("generated_images/" ++ name ++ ".png")%string)
  /\ (forall rest : string,
        has_char "." rest = false ->
        image_file_of (String "." rest)
          = ("generated_images/." ++ rest ++ ".png")%string)
  /\ (forall name : string,
        prefix "/" (name ++ ".") = false ->
        image_file_of (name ++ ".")
          = ("generated_images/" ++ name ++ "..png")%string)
  /\ (forall name : string,
        name <> ""%string ->
        has_char "." name = false -> prefix "/" name = false ->
        image_file_of name = image_file_of (name ++ ".png")).
Proof.
  assert (Hstem1 : forall name, has_char "." name = false -> stem name = name).
  { intros name Hno. unfold stem. now rewrite rfind_dot_none. }
  assert (Hplain : forall name, has_char "." name = false ->
            prefix "/" name = false ->
            image_file_of name = ("generated_images/" ++ name ++ ".png")%string).
  { intros name Hno Hslash. unfold image_file_of. rewrite (Hstem1 name Hno).
    rewrite path_join_plain; [reflexivity | discriminate | reflexivity | ].
    destruct name as [|c name]; [reflexivity|].
    now rewrite prefix_slash_app by discriminate. }
  split; [exact Hplain|]. split; [|split].
  - intros rest Hno. unfold image_file_of.
    assert (Hs : stem (String "." rest) = String "." rest).
    { unfold stem. simpl rfind_dot. now rewrite rfind_dot_none. }
    rewrite Hs. rewrite path_join_plain; [reflexivity | discriminate | reflexivity | ].
    reflexivity.
  - intros name Hslash. unfold image_file_of.
    assert (Hs : stem (name ++ ".") = (name ++ ".")%string).
    { unfold stem.
      rewrite (rfind_dot_last name ""%string 0 eq_refl).
      rewrite length_app_string. simpl.
      replace (Nat.ltb (String.length name) (String.length name + 1 - 1))
        with false by (symmetry; apply Nat.ltb_ge; lia).
      now rewrite andb_false_r. }
    rewrite Hs.
    rewrite path_join_plain; [ | discriminate | reflexivity | ].
    + assert (Hassoc : ((name ++ ".") ++ ".png" = name ++ "..png")%string)
        by (clear; induction name as [|c name IH]; simpl;
            [reflexivity | now rewrite IH]).
      now rewrite Hassoc.
    + rewrite prefix_slash_app; [exact Hslash|].
      destruct name; discriminate.
  - intros name Hne Hno Hslash. rewrite (Hplain name Hno Hslash).
    unfold image_file_of.
    change (name ++ ".png")%string with (name ++ String "." "png")%string.
    rewrite (@stem_of_base_ext name "png" Hne); [ | discriminate | reflexivity].
    rewrite path_join_plain; [reflexivity | discriminate | reflexivity | ].
    destruct name as [|c name]; [congruence|].
    now rewrite prefix_slash_app by discriminate.
Qed.

(** ** The report of a run *)

Section Report.

Context {F : Type} `{Scalar F}.
Variable w : World F.
Variable sigmas : list F.

Lemma line_scores_app (l1 l2 : list (output F)) :
  line_scores (l1 ++ l2) = line_scores l1 ++ line_scores l2.
Proof.
  induction l1 as [|[line|gt_file s|a|l] l1 IH]; simpl; congruence.
Qed.

Lemma batch_loop_report (gt_files : list string) (st0 st : state F) :
  batch_loop w sigmas gt_files st0 = Finished st ->
  exists lines,
    Forall2 (line_of_entry w sigmas) gt_files lines
    /\ oks_scores st = oks_scores st0 ++ line_scores lines
    /\ stdout st = stdout st0 ++ lines.
Proof.
  revert st0; induction gt_files as [|gt_file rest IH]; intros st0 Hrun.
  - simpl in Hrun. inversion Hrun; subst. exists [].
    simpl. rewrite !app_nil_r. repeat split. constructor.
  - simpl in Hrun.
    destruct (path_exists w (image_file_of gt_file)) eqn:Hex; simpl in Hrun.
    + destruct (score_pair w sigmas gt_file (image_file_of gt_file))
        as [oks_score|e] eqn:Hs; [|discriminate Hrun].
      destruct (IH _ Hrun) as [lines [Hall [Hsc Hout]]].
      exists (OksLine gt_file oks_score :: lines).
      split; [|split].
      * constructor; [|assumption]. right. split; [assumption|].
        exists oks_score. now split.
      * rewrite Hsc. simpl. now rewrite <- app_assoc.
      * rewrite Hout. simpl. now rewrite <- app_assoc.
    + destruct (IH _ Hrun) as [lines [Hall [Hsc Hout]]].
      exists (Text ("Generated image not found for " ++ gt_file)%string :: lines).
      split; [|split].
      * constructor; [|assumption]. left. now split.
      * rewrite Hsc. reflexivity.
      * rewrite Hout. simpl. now rewrite <- app_assoc.
Qed.

Lemma batch_loop_finishes_iff (gt_files : list string) (st0 : state F) :
  (exists st, batch_loop w sigmas gt_files st0 = Finished st)
  <-> (forall gt_file, In gt_file gt_files ->
         path_exists w (image_file_of gt_file) = true ->
         exists oks_score,
           score_pair w sigmas gt_file (image_file_of gt_file) = Ok oks_score).
Proof.
  revert st0; induction gt_files as [|gt_file rest IH]; intros st0.
  - split; [intros _ f []|]. intros _. eexists. reflexivity.
  - simpl batch_loop.
    destruct (path_exists w (image_file_of gt_file)) eqn:Hex; simpl negb;
      cbv iota.
    + destruct (score_pair w sigmas gt_file (image_file_of gt_file))
        as [oks_score|e] eqn:Hs.
      * rewrite IH. split.
        -- intros Hrest f [<-|Hin] Hf; [eauto | now apply Hrest].
        -- intros Hall f Hin. apply Hall. now right.
      * split; [intros [st Hst]; discriminate Hst|].
        intros Hall. destruct (Hall gt_file (or_introl eq_refl) Hex) as [s Hs'].
        congruence.
    + rewrite IH. split.
      * intros Hrest f [<-|Hin] Hf; [congruence | now apply Hrest].
      * intros Hall f Hin. apply Hall. now right.
Qed.

End Report.



(** X10.  A run finishes, and prints its summary, exactly when the pair
    of every entry whose generated image exists can be scored; entries
    without generated image never stop it. *)
Theorem run_finishes_iff
    {F : Type} `{Scalar F} (w : World F) (sigmas : list F) :
  (exists st, main w sigmas = Finished st)
  <->
  (forall gt_file : string,
      In gt_file (listdir_ground_truth w) ->
      path_exists w (image_file_of gt_file) = true ->
      exists oks_score,
        score_pair w sigmas gt_file (image_file_of gt_file) = Ok oks_score).
Proof.
  assert (Hin : forall f, In f (sorted (listdir_ground_truth w))
                          <-> In f (listdir_ground_truth w)).
  { intros f. pose proof (StringSort.Permuted_sort (listdir_ground_truth w)) as Hp.
    split; intros Hf.
    - apply Permutation_sym in Hp. exact (Permutation_in f Hp Hf).
    - exact (Permutation_in f Hp Hf). }
  split.
  - intros [st Hst] f Hf.
    destruct (main_finished w sigmas Hst) as [st0 [Hloop _]].
    apply (proj1 (batch_loop_finishes_iff w sigmas _ initial)
             (ex_intro _ st0 Hloop)).
    now apply Hin.
  - intros Hall.
    destruct (proj2 (batch_loop_finishes_iff w sigmas
                       (sorted (listdir_ground_truth w)) initial))
      as [st0 Hloop].
    + intros f Hf. apply Hall. now apply Hin.
    + exists (summary st0). unfold main. now rewrite Hloop.
Qed.

(** ** The order of the listing *)

Section ListingOrder.

Lemma string_leb_trans (a b c : string) :
  String.leb a b = true -> String.leb b c = true -> String.leb a c = true.
Proof.
  unfold String.leb.
  change String.compare with OrderedTypeEx.String_as_OT.cmp.
  intros Hab Hbc.
  destruct (OrderedTypeEx.String_as_OT.cmp a b) eqn:Eab; try discriminate Hab;
    destruct (OrderedTypeEx.String_as_OT.cmp b c) eqn:Ebc; try discriminate Hbc.
  - apply OrderedTypeEx.String_as_OT.cmp_eq in Eab. subst b. now rewrite Ebc.
  - apply OrderedTypeEx.String_as_OT.cmp_eq in Eab. subst b. now rewrite Ebc.
  - apply OrderedTypeEx.String_as_OT.cmp_eq in Ebc. subst c. now rewrite Eab.
  - apply OrderedTypeEx.String_as_OT.cmp_lt in Eab, Ebc.
    pose proof (OrderedTypeEx.String_as_OT.lt_trans a b c Eab Ebc) as Hac.
    apply OrderedTypeEx.String_as_OT.cmp_lt in Hac. now rewrite Hac.
Qed.

Lemma sorted_is_strongly_sorted (names : list string) :
  StronglySorted (fun x y => is_true (String.leb x y)) (sorted names).
Proof.
  apply StringSort.StronglySorted_sort.
  intros x y z Hxy Hyz. exact (string_leb_trans x y z Hxy Hyz).
Qed.

Lemma strongly_sorted_unique (l1 l2 : list string) :
  StronglySorted (fun x y => is_true (String.leb x y)) l1 ->
  StronglySorted (fun x y => is_true (String.leb x y)) l2 ->
  Permutation l1 l2 -> l1 = l2.
Proof.
  revert l2; induction l1 as [|a l1 IH]; intros l2 H1 H2 Hp.
  - apply Permutation_nil in Hp. now subst.
  - destruct l2 as [|b l2].
    + apply Permutation_sym, Permutation_nil in Hp. discriminate Hp.
    + inversion H1 as [|? ? S1 F1]; subst. inversion H2 as [|? ? S2 F2]; subst.
      assert (Hab : a = b).
      { assert (Ha : In a (b :: l2))
          by (apply (Permutation_in a Hp); now left).
        assert (Hb : In b (a :: l1))
          by (apply (Permutation_in b (Permutation_sym Hp)); now left).
        destruct Ha as [Ha|Ha]; [now subst|].
        destruct Hb as [Hb|Hb]; [now subst|].
        rewrite Forall_forall in F1, F2.
        apply String.leb_antisym; [apply F1, Hb | apply F2, Ha]. }
      subst b. f_equal. apply IH; try assumption.
      now apply Permutation_cons_inv with (a := a).
Qed.

Lemma sorted_permutation (names names' : list string) :
  Permutation names names' -> sorted names = sorted names'.
Proof.
  intros Hp. apply strongly_sorted_unique;
    try apply sorted_is_strongly_sorted.
  apply Permutation_trans with names';
    [|apply StringSort.Permuted_sort].
  apply Permutation_trans with names; [|assumption].
  apply Permutation_sym, StringSort.Permuted_sort.
Qed.

Lemma batch_loop_with_listing {F} `{Scalar F} (names : list string)
    (w : World F) (sigmas : list F) (gt_files : list string) (st : state F) :
  batch_loop (with_listing names w) sigmas gt_files st
    = batch_loop w sigmas gt_files st.
Proof.
  revert st; induction gt_files as [|gt_file rest IH]; intros st;
    [reflexivity|].
  simpl. rewrite !IH. reflexivity.
Qed.

End ListingOrder.

(** X11.  The run does not depend on the order in which [os.listdir]
    gives the ground-truth folder: with the same files listed in any
    other order the run has the same outcome, output included. *)
Theorem run_independent_of_listing_order
    {F : Type} `{Scalar F} (w : World F) (sigmas : list F)
    (names : list string) :
  Permutation (listdir_ground_truth w) names ->
  main (with_listing names w) sigmas = main w sigmas.
Proof.
  intros Hp. unfold main. simpl listdir_ground_truth.
  rewrite <- (sorted_permutation Hp).
  now rewrite batch_loop_with_listing.
Qed.

Lemma run_independent_of_listing_order_witness :
  main (with_listing ["a.png"; "b.png"]%string candidate_missing_world)
       sample_sigmas
    = main candidate_missing_world sample_sigmas.
Proof.
  apply (@run_independent_of_listing_order R ideal candidate_missing_world
           sample_sigmas ["a.png"; "b.png"]%string).
  apply perm_swap.
Defined.

(** ** The pipeline over the reals *)

Section IdealPipeline.

Open Scope R_scope.

Variable w : World R.
Variable sigmas : list R.

Lemma bounding_box_area_nonnegative (k : R * R) (rows : list (R * R)) :
  exists area, bounding_box_area (Arr2 (k :: rows)) = Ok area /\ 0 <= area.
Proof.
  eexists. split; [apply bounding_box_area_unfold|].
  destruct (fold_max_spec (map fst rows) (fst k)) as [_ Hmx].
  destruct (fold_min_spec (map fst rows) (fst k)) as [_ Hnx].
  destruct (fold_max_spec (map snd rows) (snd k)) as [_ Hmy].
  destruct (fold_min_spec (map snd rows) (snd k)) as [_ Hny].
  pose proof (Hmx _ (or_introl eq_refl)). pose proof (Hnx _ (or_introl eq_refl)).
  pose proof (Hmy _ (or_introl eq_refl)). pose proof (Hny _ (or_introl eq_refl)).
  apply Rmult_le_pos; lra.
Qed.

Lemma ideal_same_array_scores_one (p : list (R * R)) (area : R) :
  p <> [] -> length sigmas = length p ->
  calculate_oks (Arr2 p) (Arr2 p) sigmas area = Ok 1.
Proof.
  intros Hp Es.
  rewrite calculate_oks_equal_lengths by auto.
  f_equal. unfold np_mean.
  rewrite similarities_length, np_sum_similarities by auto.
  rewrite (sum_upto_ext _ (fun _ => 1)).
  - rewrite sum_upto_const. simpl.
    assert (INR (length p) <> 0)
      by (apply not_0_INR; destruct p; [congruence | simpl; lia]).
    now field.
  - intros i Hi. unfold similarity. rewrite d_same. simpl.
    unfold Rdiv. rewrite Ropp_0, Rmult_0_l. apply exp_0.
Qed.

Lemma ideal_returned_score_in_unit_interval (p r : list (R * R)) (area s : R) :
  p <> [] -> sigmas <> [] ->
  Forall (fun x => 0 < x) sigmas -> 0 <= area ->
  calculate_oks (Arr2 p) (Arr2 r) sigmas area = Ok s ->
  0 < s <= 1.
Proof.
  intros Hp Hs Hpos Harea Hcall.
  assert (E : length p = length r).
  { unfold calculate_oks in Hcall.
    destruct (shape_eqb (shape (Arr2 p)) (shape (Arr2 r))) eqn:Eb;
      [|discriminate Hcall].
    apply shape_eqb_true in Eb. simpl in Eb. congruence. }
  remember (map (fun q => (fst q + snd q)%sc)
              (map (fun q => (square (fst q), square (snd q)))
                 (zip_with
                    (fun a b => ((fst a - fst b)%sc, (snd a - snd b)%sc))
                    p r))) as dists eqn:Edists.
  assert (Hd : squared_distances (Arr2 p) (Arr2 r) = Ok dists)
    by (subst dists; reflexivity).
  clear Edists.
  pose proof (squared_distances_length E Hd) as Ld.
  pose proof (squared_distances_nonnegative Hd) as Hnn.
  pose proof (variances_positive Hpos Harea) as Hv.
  rewrite (calculate_oks_rows sigmas area E Hd) in Hcall.
  unfold exponents in Hcall.
  destruct (broadcast s_div (map s_neg dists) (variances sigmas area))
    as [args|e] eqn:Ha; [|discriminate Hcall].
  simpl in Hcall. inversion Hcall; subst s.
  apply np_mean_in_unit_interval.
  - assert (args <> []).
    { eapply broadcast_nonempty; [exact Ha | | ].
      - destruct dists; [destruct p; simpl in Ld; congruence | discriminate].
      - unfold variances. destruct sigmas; [congruence | discriminate]. }
    destruct args; [congruence | discriminate].
  - apply Forall_forall. intros z Hz. apply in_map_iff in Hz.
    destruct Hz as [q [<- Hq]].
    destruct (@broadcast_elements R _ _ _ _ q Ha Hq) as [x [v [Hx [Hvin ->]]]].
    apply in_map_iff in Hx. destruct Hx as [d [<- Hdin]].
    rewrite Forall_forall in Hnn, Hv.
    apply decay_in_unit_interval; auto.
Qed.

Lemma extract_pose_gives (image_path : string) (a : ndarray R) :
  extract_pose w image_path = Ok a ->
  a = Arr1 [] \/ exists k rows, a = Arr2 (k :: rows).
Proof.
  unfold extract_pose.
  destruct (apply_openpose w image_path) as [detected_map|e];
    [|discriminate].
  simpl. intros Ha. inversion Ha; subst.
  destruct (collect_keypoints detected_map) as [|k rows];
    [left; reflexivity | right; exists k, rows; reflexivity].
Qed.

Lemma score_pair_in_unit_interval (gt_file image_file : string) (s : R) :
  sigmas <> [] -> Forall (fun x => 0 < x) sigmas ->
  score_pair w sigmas gt_file image_file = Ok s -> 0 < s <= 1.
Proof.
  intros Hs Hpos Hpair. unfold score_pair in Hpair.
  destruct (extract_pose w (path_join ground_truth_folder gt_file))
    as [gt|e] eqn:Hgt; [|discriminate Hpair].
  cbn [bind] in Hpair.
  destruct (extract_pose w image_file) as [pred|e] eqn:Hpred;
    [|discriminate Hpair].
  cbn [bind] in Hpair.
  destruct (extract_pose_gives _ Hgt) as [->|[k [rows ->]]];
    [discriminate Hpair|].
  destruct (bounding_box_area_nonnegative k rows) as [area [Harea Hnn]].
  rewrite Harea in Hpair. cbn [bind] in Hpair.
  destruct (extract_pose_gives _ Hpred) as [->|[k' [rows' ->]]].
  - rewrite shape_mismatch_asserts in Hpair by (simpl; discriminate).
    discriminate Hpair.
  - eapply ideal_returned_score_in_unit_interval; try exact Hpair;
      try assumption. discriminate.
Qed.

End IdealPipeline.

(** X12.  What [extract_pose] hands on is never a two-dimensional array
    without rows: it is the empty one-dimensional array when no joint was
    detected, and an array with at least one row otherwise.  So the
    bounding box of lines 76-77 either raises IndexError (no detection)
    or has a value; the empty-reduction error of [np.max] and [np.min]
    cannot occur. *)
Theorem extract_pose_shapes
    {F : Type} `{Scalar F} (w : World F) (image_path : string)
    (keypoints : ndarray F) :
  extract_pose w image_path = Ok keypoints ->
  (keypoints = Arr1 []
   /\ bounding_box_area keypoints =
        Raise (IndexError "too many indices for array: array is 1-dimensional, but 2 were indexed"))
  \/ (exists (k : F * F) (rows : list (F * F)) (area : F),
         keypoints = Arr2 (k :: rows)
         /\ bounding_box_area keypoints = Ok area).
Proof.
  unfold extract_pose.
  destruct (apply_openpose w image_path) as [detected_map|e];
    [|discriminate].
  simpl. intros Ha. inversion Ha; subst.
  destruct (collect_keypoints detected_map) as [|k rows].
  - left. split; reflexivity.
  - right. exists k, rows. eexists. split; reflexivity.
Qed.

Lemma extract_pose_shapes_witness :
  (extract_pose nothing_detected_world "poses/a.png" = Ok (Arr1 [])
   /\ bounding_box_area (F:=R) (Arr1 []) =
        Raise (IndexError "too many indices for array: array is 1-dimensional, but 2 were indexed"))
  /\ exists area : R,
       extract_pose nothing_detected_world "poses/b.png"
         = Ok (Arr2 sample_reference)
       /\ bounding_box_area (Arr2 sample_reference) = Ok area.
Proof.
  split.
  - destruct (@extract_pose_shapes R ideal nothing_detected_world
                "poses/a.png" (Arr1 []) eq_refl)
      as [[_ Hbox]|[k [rows [area [Hk _]]]]]; [|discriminate Hk].
    split; [reflexivity | exact Hbox].
  - destruct (@extract_pose_shapes R ideal nothing_detected_world
                "poses/b.png" (Arr2 sample_reference) eq_refl)
      as [[Hk _]|[k [rows [area [_ Hbox]]]]]; [discriminate Hk|].
    exists area. split; [reflexivity | exact Hbox].
Defined.

(** X13.  Read over the reals: when the detector finds the same points,
    at least one, in the ground-truth image and in the generated image,
    and there is one positive sigma per detected point, the pair scores
    exactly 1. *)
Theorem identical_detections_score_one
    (w : World R) (sigmas : list R) (gt_file image_file : string)
    (detected_map : list (option (R * R))) :
  apply_openpose w (path_join ground_truth_folder gt_file) = Ok detected_map ->
  apply_openpose w image_file = Ok detected_map ->
  collect_keypoints detected_map <> [] ->
  length sigmas = length (collect_keypoints detected_map) ->
  Forall (fun s => (0 < s)%R) sigmas ->
  score_pair w sigmas gt_file image_file = Ok 1%R.
Proof.
  intros Hgt Hpred Hne Hlen Hpos.
  unfold score_pair, extract_pose. rewrite Hgt, Hpred. cbn [bind].
  destruct (collect_keypoints detected_map) as [|k rows] eqn:Ek;
    [congruence|].
  cbn [np_array].
  destruct (bounding_box_area_nonnegative k rows) as [area [-> _]].
  cbn [bind]. now apply ideal_same_array_scores_one.
Qed.

Lemma identical_detections_score_one_witness :
  score_pair joint_missed_world sample_sigmas "b.png" "poses/b.png" = Ok 1%R.
Proof.
  apply (@identical_detections_score_one joint_missed_world sample_sigmas
           "b.png" "poses/b.png" (map Some sample_reference)).
  - reflexivity.
  - reflexivity.
  - discriminate.
  - reflexivity.
  - unfold sample_sigmas. repeat constructor; lra.
Defined.

(** X14.  Read over the reals, with at least one sigma and all sigmas
    positive: in a run that finishes, every score of the score list lies
    in (0, 1], and so does the average the summary prints when at least
    one pair was scored. *)
Theorem reported_scores_in_unit_interval
    (w : World R) (sigmas : list R) (st : state R) :
  sigmas <> [] -> Forall (fun s => (0 < s)%R) sigmas ->
  main w sigmas = Finished st ->
  Forall (fun s => (0 < s <= 1)%R) (oks_scores st)
  /\ (exists out,
        stdout st = out ++ [Text "
Evaluation Summary:";
                            AverageLine (np_mean (oks_scores st));
                            ScoresLine (oks_scores st)])
  /\ (oks_scores st <> [] -> (0 < np_mean (oks_scores st) <= 1)%R).
Proof.
  intros Hs Hpos Hmain.
  destruct (main_finished w sigmas Hmain) as [st0 [Hloop ->]].
  destruct (batch_loop_report w sigmas _ _ Hloop) as [lines [Hall [Hsc Hout]]].
  simpl in Hsc.
  assert (Hscores : Forall (fun s => (0 < s <= 1)%R) (oks_scores st0)).
  { rewrite Hsc. clear Hsc Hout Hloop Hmain.
    induction Hall as [|gt_file line files lines Hline _ IH]; [constructor|].
    destruct Hline as [[_ ->]|[_ [s [Hpair ->]]]]; simpl; [exact IH|].
    constructor; [|exact IH].
    exact (score_pair_in_unit_interval w gt_file (image_file_of gt_file)
             Hs Hpos Hpair). }
  rewrite summary_scores, summary_stdout.
  split; [assumption|]. split; [eexists; reflexivity|].
  intros Hne. now apply np_mean_in_unit_interval.
Qed.

Lemma reported_scores_in_unit_interval_witness :
  exists st : state R,
    main candidate_missing_world sample_sigmas = Finished st
    /\ Forall (fun s => (0 < s <= 1)%R) (oks_scores st)
    /\ (oks_scores st <> [] -> (0 < np_mean (oks_scores st) <= 1)%R).
Proof.
  assert (E : exists st, main candidate_missing_world sample_sigmas = Finished st)
    by (eexists; reflexivity).
  destruct E as [st E]. exists st. split; [exact E|].
  destruct (@reported_scores_in_unit_interval candidate_missing_world
              sample_sigmas st) as [Hall [_ Havg]].
  - discriminate.
  - unfold sample_sigmas. repeat constructor; lra.
  - exact E.
  - split; assumption.
Defined.

(** ** Shifted detections *)

Section Shifted.

Open Scope R_scope.

Variables tx ty : R.

Lemma collect_keypoints_shifted (detected_map : list (option (R * R))) :
  collect_keypoints (map (option_map (shift_point tx ty)) detected_map)
    = translate tx ty (collect_keypoints detected_map).
Proof.
  induction detected_map as [|[q|] rest IH]; simpl; [reflexivity | | exact IH].
  rewrite IH. reflexivity.
Qed.

Lemma calculate_oks_translate (p r : list (R * R)) (sigmas : list R) (area : R) :
  calculate_oks (Arr2 (translate tx ty p)) (Arr2 (translate tx ty r))
      sigmas area
    = calculate_oks (Arr2 p) (Arr2 r) sigmas area.
Proof.
  unfold calculate_oks. simpl shape. rewrite !translate_length.
  now rewrite squared_distances_translate.
Qed.

Lemma score_pair_shifted (w : World R) (sigmas : list R)
    (gt_file image_file : string) :
  score_pair (shifted_detections tx ty w) sigmas gt_file image_file
    = score_pair w sigmas gt_file image_file.
Proof.
  unfold score_pair, extract_pose. cbn [apply_openpose shifted_detections].
  destruct (apply_openpose w (path_join ground_truth_folder gt_file))
    as [gt_map|e]; [|reflexivity].
  cbn [bind].
  destruct (apply_openpose w image_file) as [pred_map|e]; [|reflexivity].
  cbn [bind]. rewrite !collect_keypoints_shifted.
  destruct (collect_keypoints gt_map) as [|k rows]; [reflexivity|].
  change (np_array (translate tx ty (k :: rows)))
    with (Arr2 (translate tx ty (k :: rows))).
  cbn [np_array]. rewrite bounding_box_area_translate.
  destruct (bounding_box_area (Arr2 (k :: rows))) as [area|e]; [|reflexivity].
  cbn [bind].
  destruct (collect_keypoints pred_map) as [|k' rows'].
  - rewrite !shape_mismatch_asserts by (simpl; discriminate). reflexivity.
  - change (np_array (translate tx ty (k' :: rows')))
      with (Arr2 (translate tx ty (k' :: rows'))).
    cbn [np_array]. apply calculate_oks_translate.
Qed.

Lemma batch_loop_shifted (w : World R) (sigmas : list R)
    (gt_files : list string) (st : state R) :
  batch_loop (shifted_detections tx ty w) sigmas gt_files st
    = batch_loop w sigmas gt_files st.
Proof.
  revert st; induction gt_files as [|gt_file rest IH]; intros st;
    [reflexivity|].
  cbn [batch_loop]. cbn [path_exists shifted_detections].
  rewrite score_pair_shifted.
  destruct (negb (path_exists w (image_file_of gt_file))); [apply IH|].
  destruct (score_pair w sigmas gt_file (image_file_of gt_file));
    [apply IH | reflexivity].
Qed.

End Shifted.

(** X15.  Read over the reals: shifting every point the detector
    reports, in every image, by the same vector changes nothing in the
    run: same scores, same output, same exception if any.  (The shift
    cancels in the distances and in the sides of the bounding box.) *)
Theorem run_invariant_under_shift
    (tx ty : R) (w : World R) (sigmas : list R) :
  main (shifted_detections tx ty w) sigmas = main w sigmas.
Proof.
  unfold main. cbn [listdir_ground_truth shifted_detections].
  now rewrite batch_loop_shifted.
Qed.

(** ** How many pairs are scored *)

Section Counts.

Context {F : Type} `{Scalar F}.
Variable w : World F.
Variable sigmas : list F.

Lemma batch_loop_counts (gt_files : list string) (st0 st : state F) :
  batch_loop w sigmas gt_files st0 = Finished st ->
  length (oks_scores st)
    = length (oks_scores st0)
      + length (filter (fun f => path_exists w (image_file_of f)) gt_files)
  /\ length (stdout st) = length (stdout st0) + length gt_files.
Proof.
  revert st0; induction gt_files as [|gt_file rest IH]; intros st0 Hrun.
  - simpl in Hrun. inversion Hrun; subst. simpl. lia.
  - cbn [batch_loop] in Hrun. cbn [filter].
    destruct (path_exists w (image_file_of gt_file)) eqn:Hex;
      cbn [negb] in Hrun; cbv iota in Hrun.
    + destruct (score_pair w sigmas gt_file (image_file_of gt_file))
        as [oks_score|e]; [|discriminate Hrun].
      destruct (IH _ Hrun) as [Hs Ho]. rewrite Hs, Ho. simpl.
      rewrite !length_app. simpl. lia.
    + destruct (IH _ Hrun) as [Hs Ho]. rewrite Hs, Ho. simpl.
      rewrite !length_app. simpl. lia.
Qed.

End Counts.

(** X16.  In a run that finishes, the score list has one score for each
    entry of the ground-truth folder whose generated image exists, and
    the output has one line per entry plus the three summary lines. *)
Theorem finished_run_counts
    {F : Type} `{Scalar F} (w : World F) (sigmas : list F) (st : state F) :
  main w sigmas = Finished st ->
  length (oks_scores st)
    = length (filter (fun f => path_exists w (image_file_of f))
                (listdir_ground_truth w))
  /\ length (stdout st) = length (listdir_ground_truth w) + 3.
Proof.
  intros Hmain.
  destruct (main_finished w sigmas Hmain) as [st0 [Hloop ->]].
  destruct (batch_loop_counts w sigmas _ _ Hloop) as [Hs Ho].
  pose proof (StringSort.Permuted_sort (listdir_ground_truth w)) as Hp.
  rewrite summary_scores, summary_stdout, length_app, Hs, Ho. simpl.
  split.
  - apply Permutation_length, Permutation_sym.
    clear -Hp. unfold sorted.
    induction Hp; simpl; auto.
    + destruct (path_exists w (image_file_of x)); auto.
    + destruct (path_exists w (image_file_of x)),
               (path_exists w (image_file_of y)); auto using perm_swap.
    + eauto using Permutation_trans.
  - unfold sorted. rewrite <- (Permutation_length Hp). lia.
Qed.

Lemma finished_run_counts_witness :
  exists st : state R,
    main candidate_missing_world sample_sigmas = Finished st
    /\ length (oks_scores st) = 1
    /\ length (stdout st) = 5.
Proof.
  assert (E : exists st, main candidate_missing_world sample_sigmas = Finished st)
    by (eexists; reflexivity).
  destruct E as [st E]. exists st. split; [exact E|].
  exact (finished_run_counts candidate_missing_world sample_sigmas E).
Defined.

(** ** Runs without scores *)

Section NoScores.

Context {F : Type} `{Scalar F}.
Variable w : World F.
Variable sigmas : list F.

Lemma main_crashed (e : exn) (st : state F) :
  main w sigmas = Crashed e st ->
  batch_loop w sigmas (sorted (listdir_ground_truth w)) initial = Crashed e st.
Proof.
  unfold main.
  destruct (batch_loop w sigmas (sorted (listdir_ground_truth w)) initial);
    [discriminate | trivial].
Qed.

Lemma batch_loop_crash_prints_no_average (gt_files : list string)
    (st0 st : state F) (e : exn) :
  (forall x, ~ In (AverageLine x) (stdout st0)) ->
  batch_loop w sigmas gt_files st0 = Crashed e st ->
  forall x, ~ In (AverageLine x) (stdout st).
Proof.
  revert st0; induction gt_files as [|gt_file rest IH]; intros st0 Hno Hrun;
    [discriminate Hrun|].
  cbn [batch_loop] in Hrun.
  destruct (negb (path_exists w (image_file_of gt_file))).
  - eapply IH; [|exact Hrun].
    intros x Hin. cbn [print stdout] in Hin. apply in_app_or in Hin.
    destruct Hin as [Hin|[Hin|[]]]; [exact (Hno x Hin) | discriminate Hin].
  - destruct (score_pair w sigmas gt_file (image_file_of gt_file))
      as [oks_score|e'].
    + eapply IH; [|exact Hrun].
      intros x Hin. cbn [print append_score stdout] in Hin.
      apply in_app_or in Hin.
      destruct Hin as [Hin|[Hin|[]]]; [exact (Hno x Hin) | discriminate Hin].
    + inversion Hrun; subst. exact Hno.
Qed.

Lemma batch_loop_all_missing (gt_files : list string) (st0 : state F) :
  (forall gt_file, In gt_file gt_files ->
     path_exists w (image_file_of gt_file) = false) ->
  exists st,
    batch_loop w sigmas gt_files st0 = Finished st
    /\ oks_scores st = oks_scores st0.
Proof.
  revert st0; induction gt_files as [|gt_file rest IH]; intros st0 Hall.
  - exists st0. now split.
  - rewrite batch_loop_missing by (apply Hall; now left).
    destruct (IH (print (Text ("Generated image not found for " ++ gt_file)%string) st0))
      as [st [Hrun Hsc]].
    + intros f Hf. apply Hall. now right.
    + exists st. now split.
Qed.

Lemma no_scores_all_missing (gt_files : list string) (st0 st : state F) :
  batch_loop w sigmas gt_files st0 = Finished st ->
  oks_scores st0 = [] -> oks_scores st = [] ->
  forall gt_file, In gt_file gt_files ->
    path_exists w (image_file_of gt_file) = false.
Proof.
  intros Hrun H0 Hnil gt_file Hin.
  destruct (batch_loop_counts w sigmas _ _ Hrun) as [Hlen _].
  rewrite H0, Hnil in Hlen. simpl in Hlen.
  destruct (path_exists w (image_file_of gt_file)) eqn:Hex; [|reflexivity].
  assert (Hf : In gt_file
                 (filter (fun f => path_exists w (image_file_of f)) gt_files))
    by (apply filter_In; split; [exact Hin | exact Hex]).
  destruct (filter _ gt_files); [contradiction | discriminate Hlen].
Qed.

Lemma in_sorted_iff (names : list string) (f : string) :
  In f (sorted names) <-> In f names.
Proof.
  pose proof (StringSort.Permuted_sort names) as Hp. split; intros Hf.
  - apply Permutation_sym in Hp. exact (Permutation_in f Hp Hf).
  - exact (Permutation_in f Hp Hf).
Qed.

End NoScores.

(** C7 (amended).  In double precision and whatever [np.exp] computes:
    - a run reaches its summary without a score exactly when no entry of
      the ground-truth folder has a generated image (in particular when
      the folder is empty); the summary then shows the average as NaN,
      the value of 0.0 / 0, and not as 0.0;
    - a run that an exception ends, so also one in which every pair that
      was tried failed, prints no summary: its output holds no average at
      all. *)
Theorem no_scores_nan_or_no_summary
    (fexp : float -> float) (w : World float) (sigmas : list float) :
  (forall st : state float,
      @main float (binary64 fexp) w sigmas = Finished st ->
      oks_scores st = [] ->
      (forall gt_file, In gt_file (listdir_ground_truth w) ->
         path_exists w (image_file_of gt_file) = false)
      /\ exists out average,
           stdout st = out ++ [Text "
Evaluation Summary:"; AverageLine average; ScoresLine []]
           /\ PrimFloat.is_nan average = true
           /\ average <> 0%float)
  /\ ((forall gt_file, In gt_file (listdir_ground_truth w) ->
         path_exists w (image_file_of gt_file) = false) ->
      exists st : state float,
        @main float (binary64 fexp) w sigmas = Finished st
        /\ oks_scores st = [])
  /\ (forall (e : exn) (st : state float),
        @main float (binary64 fexp) w sigmas = Crashed e st ->
        forall x, ~ In (AverageLine x) (stdout st)).
Proof.
  split; [|split].
  - intros st Hmain Hnil. split.
    + destruct (@main_finished float (binary64 fexp) w sigmas st Hmain)
        as [st0 [Hloop Hst]].
      subst st. rewrite summary_scores in Hnil.
      intros gt_file Hin.
      apply (@no_scores_all_missing float (binary64 fexp) w sigmas
               _ _ _ Hloop eq_refl Hnil).
      exact (proj2 (in_sorted_iff _ gt_file) Hin).
    + exact (summary_without_scores_is_nan fexp w sigmas Hmain Hnil).
  - intros Hall.
    destruct (@batch_loop_all_missing float (binary64 fexp) w sigmas
                (sorted (listdir_ground_truth w)) initial) as [st0 [Hrun Hsc]].
    + intros f Hf. apply Hall. exact (proj1 (in_sorted_iff _ f) Hf).
    + eexists. unfold main. rewrite Hrun.
      split; [reflexivity | rewrite summary_scores; exact Hsc].
  - intros e st Hmain.
    apply (@batch_loop_crash_prints_no_average float (binary64 fexp) w sigmas
             (sorted (listdir_ground_truth w)) initial st e);
      [intros x [] | now apply main_crashed].
Qed.

Lemma no_scores_nan_or_no_summary_witness :
  (exists out average,
      stdout (summary (F:=float) (H:=binary64 (fun x => x))
                {| oks_scores := [];
                   stdout := [Text "Generated image not found for a.png"] |})
        = out ++ [Text "
Evaluation Summary:"; AverageLine average; ScoresLine []]
      /\ PrimFloat.is_nan average = true
      /\ average <> 0%float)
  /\ stdout (initial (F:=float)) = [].
Proof.
  split; [|reflexivity].
  refine (proj2 (proj1 (@no_scores_nan_or_no_summary (fun x => x) lonely_world [])
                   (summary (F:=float) (H:=binary64 (fun x => x))
                      {| oks_scores := [];
                         stdout := [Text "Generated image not found for a.png"] |})
                   _ _)).
  - vm_compute. reflexivity.
  - reflexivity.
Defined.

(** Against C7 as stated: the only pair of the run fails (no joint is
    detected), so no pair is scored; the run ends with the exception and
    its output is empty: no summary and no mean, NaN or other, is
    reported. *)
Lemma failed_pairs_leave_no_summary :
  listdir_ground_truth nothing_found_world = ["a.png"%string]
  /\ forall fexp : float -> float,
       @main float (binary64 fexp) nothing_found_world [1%float] =
         Crashed (IndexError "too many indices for array: array is 1-dimensional, but 2 were indexed")
           {| oks_scores := []; stdout := [] |}.
Proof.
  split; [reflexivity | intros fexp; reflexivity].
Qed.
